(** * Document chunking utilities (src/lib/awsTitan.ts, second module:
      [chunkText], [getOverlapText], [chunkByPages], [mergeSmallChunks])

    A shallow embedding of the chunker and the proofs of its specified
    properties.

    Modelling conventions.
    - A JavaScript string is its sequence of UTF-16 code units: [list N].
      [s.length] is the number of code units.
    - A JavaScript [number] that the chunker uses as a size or a count is an
      integer of [Z] (fractional values, NaN and infinities are not modelled).
      Loop counters that start at 0 and are only incremented are [nat].
    - An optional field ([page?], the fields of [Partial<ChunkingOptions>])
      is an [option]. *)

From Stdlib Require Import Decimal DecimalNat Ascii String.
From Stdlib Require Import List ZArith NArith Bool Lia.
Import ListNotations.

Local Open Scope Z_scope.

(** ** JavaScript strings *)

Definition jsstring := list N.

(** An ASCII literal as a JavaScript string. *)
Definition str (s : string) : jsstring :=
  map N_of_ascii (list_ascii_of_string s).

(** [s.length] *)
Definition js_length (s : jsstring) : Z := Z.of_nat (length s).

(** Truthiness of a string: a string is falsy exactly when it is empty. *)
Definition truthy (s : jsstring) : bool :=
  match s with [] => false | _ :: _ => true end.

(** [a === b] on strings. *)
Fixpoint str_eqb (a b : jsstring) : bool :=
  match a, b with
  | [], [] => true
  | x :: a', y :: b' => (x =? y)%N && str_eqb a' b'
  | _, _ => false
  end.

(** The code units that [String.prototype.trim] strips: ECMAScript's
    WhiteSpace (TAB, VT, FF, ZWNBSP and the Unicode space separators) and
    LineTerminator (LF, CR, LS, PS). *)
Definition isWhiteSpace (c : N) : bool :=
  ((9 <=? c) && (c <=? 13) || (c =? 32) || (c =? 160) || (c =? 0x1680)
   || (0x2000 <=? c) && (c <=? 0x200A) || (c =? 0x2028) || (c =? 0x2029)
   || (c =? 0x202F) || (c =? 0x205F) || (c =? 0x3000) || (c =? 0xFEFF))%N.

Fixpoint trimStart (s : jsstring) : jsstring :=
  match s with
  | [] => []
  | c :: s' => if isWhiteSpace c then trimStart s' else s
  end.

Definition trimEnd (s : jsstring) : jsstring := rev (trimStart (rev s)).

(** [s.trim()] *)
Definition trim (s : jsstring) : jsstring := trimEnd (trimStart s).

(** [s.slice(start)]: a negative [start] counts from the end; the start
    position is clamped to [0 .. s.length]. *)
Definition slice (s : jsstring) (start : Z) : jsstring :=
  let len := js_length s in
  let from := if start <? 0 then Z.max (len + start) 0 else Z.min start len in
  skipn (Z.to_nat from) s.

(** [s.lastIndexOf(c)] for a one-character search string: the index of the
    last occurrence of [c], or -1. *)
Fixpoint lastIndexOf_from (c : N) (s : jsstring) (i found : Z) : Z :=
  match s with
  | [] => found
  | x :: s' => lastIndexOf_from c s' (i + 1) (if (x =? c)%N then i else found)
  end.

Definition lastIndexOf (s : jsstring) (c : N) : Z := lastIndexOf_from c s 0 (-1).

Definition dot : N := 46.

(** The character class [[.!?]]. *)
Definition isTerminator (c : N) : bool := ((c =? 46) || (c =? 33) || (c =? 63))%N.

(** [text.split(/[.!?]+/)]: the pieces of [text] between the maximal runs of
    terminator characters.  [in_run] tells that the previous character
    belonged to a run, [piece] is the piece being read.  A separator at the
    start or at the end of the text gives an empty first or last piece, and
    a text without separator (the empty text too) is its own single piece. *)
Fixpoint split_from (in_run : bool) (piece : jsstring) (s : jsstring)
  : list jsstring :=
  match s with
  | [] => [piece]
  | c :: s' =>
      if isTerminator c then
        if in_run then split_from true [] s'
        else piece :: split_from true [] s'
      else split_from false (piece ++ [c]) s'
  end.

Definition split_terminators (text : jsstring) : list jsstring :=
  split_from false [] text.

(** Decimal digits of a counter, as a template literal prints it (the
    counters are array positions, far below the 1e21 from which a number
    prints in exponent notation). *)
Fixpoint digits_of_uint (d : uint) : jsstring :=
  match d with
  | Nil => []
  | D0 d' => 48%N :: digits_of_uint d'
  | D1 d' => 49%N :: digits_of_uint d'
  | D2 d' => 50%N :: digits_of_uint d'
  | D3 d' => 51%N :: digits_of_uint d'
  | D4 d' => 52%N :: digits_of_uint d'
  | D5 d' => 53%N :: digits_of_uint d'
  | D6 d' => 54%N :: digits_of_uint d'
  | D7 d' => 55%N :: digits_of_uint d'
  | D8 d' => 56%N :: digits_of_uint d'
  | D9 d' => 57%N :: digits_of_uint d'
  end.

Definition number_to_string (n : nat) : jsstring :=
  digits_of_uint (Nat.to_uint n).

(** [arr.map((x, i) => f(i, x))], counting from [i]. *)
Fixpoint mapi_from {A B : Type} (f : nat -> A -> B) (i : nat) (l : list A)
  : list B :=
  match l with
  | [] => []
  | x :: l' => f i x :: mapi_from f (S i) l'
  end.

(** ** The data model *)

Record Metadata := mkMetadata {
  filename : jsstring;
  page : option Z;
  chunkIndex : Z;
  totalChunks : Z
}.

Record DocumentChunk := mkChunk {
  id : jsstring;
  content : jsstring;
  metadata : Metadata
}.

Record ChunkingOptions := mkOptions {
  chunkSize : Z;
  chunkOverlap : Z;
  minChunkSize : Z
}.

(** [Partial<ChunkingOptions>] *)
Record PartialChunkingOptions := mkPartial {
  chunkSize_opt : option Z;
  chunkOverlap_opt : option Z;
  minChunkSize_opt : option Z
}.

Definition DEFAULT_CHUNKING_OPTIONS : ChunkingOptions :=
  {| chunkSize := 1000; chunkOverlap := 200; minChunkSize := 100 |}.

(** The default argument [options = {}]. *)
Definition no_options : PartialChunkingOptions :=
  {| chunkSize_opt := None; chunkOverlap_opt := None; minChunkSize_opt := None |}.

(** [{ ...DEFAULT_CHUNKING_OPTIONS, ...options }] *)
Definition spread_options (options : PartialChunkingOptions) : ChunkingOptions :=
  {| chunkSize :=
       match chunkSize_opt options with
       | Some v => v | None => chunkSize DEFAULT_CHUNKING_OPTIONS end;
     chunkOverlap :=
       match chunkOverlap_opt options with
       | Some v => v | None => chunkOverlap DEFAULT_CHUNKING_OPTIONS end;
     minChunkSize :=
       match minChunkSize_opt options with
       | Some v => v | None => minChunkSize DEFAULT_CHUNKING_OPTIONS end |}.

(** ** getOverlapText *)

Definition getOverlapText (text : jsstring) (overlapSize : Z) : jsstring :=
  if js_length text <=? overlapSize then text
  else
    let endText := slice text (- overlapSize) in
    let lastSentenceStart := lastIndexOf endText dot in
    if lastSentenceStart >? 0 then trim (slice endText (lastSentenceStart + 1))
    else endText.

(** ** chunkText *)

(** The chunk pushed by either [chunks.push] of [chunkText]. *)
Definition new_chunk (fname currentChunk : jsstring) (idx : nat) : DocumentChunk :=
  {| id := fname ++ str "-chunk-" ++ number_to_string idx;
     content := trim currentChunk;
     metadata := {| filename := fname; page := None;
                    chunkIndex := Z.of_nat idx; totalChunks := 0 |} |}.

(** The variables the sentence loop updates. *)
Record LoopState := mkLoop {
  st_chunks : list DocumentChunk;
  st_currentChunk : jsstring;
  st_chunkIndex : nat
}.

(** One iteration of [for (const sentence of sentences)]. *)
Definition sentence_step (o : ChunkingOptions) (fname : jsstring)
    (st : LoopState) (sentence : jsstring) : LoopState :=
  let sentenceText := trim sentence ++ [dot] in
  let cur := st_currentChunk st in
  if (js_length cur + js_length sentenceText >? chunkSize o)
     && (js_length cur >=? minChunkSize o)
  then
    let overlapText := getOverlapText cur (chunkOverlap o) in
    {| st_chunks := st_chunks st ++ [new_chunk fname cur (st_chunkIndex st)];
       st_currentChunk := overlapText ++ str " " ++ sentenceText;
       st_chunkIndex := S (st_chunkIndex st) |}
  else
    {| st_chunks := st_chunks st;
       st_currentChunk :=
         cur ++ (if truthy cur then str " " else []) ++ sentenceText;
       st_chunkIndex := st_chunkIndex st |}.

Definition sentence_loop (o : ChunkingOptions) (fname : jsstring)
    (sentences : list jsstring) : LoopState :=
  fold_left (sentence_step o fname) sentences
    {| st_chunks := []; st_currentChunk := []; st_chunkIndex := 0 |}.

(** [text.split(/[.!?]+/).filter(s => s.trim().length > 0)] *)
Definition sentences_of (text : jsstring) : list jsstring :=
  filter (fun s => js_length (trim s) >? 0) (split_terminators text).

(** The last push, guarded by [currentChunk.trim().length > 0]. *)
Definition flush_last (fname : jsstring) (st : LoopState) : list DocumentChunk :=
  if js_length (trim (st_currentChunk st)) >? 0
  then st_chunks st ++ [new_chunk fname (st_currentChunk st) (st_chunkIndex st)]
  else st_chunks st.

Definition set_totalChunks (n : Z) (c : DocumentChunk) : DocumentChunk :=
  {| id := id c; content := content c;
     metadata := {| filename := filename (metadata c);
                    page := page (metadata c);
                    chunkIndex := chunkIndex (metadata c);
                    totalChunks := n |} |}.

Definition chunkText (text fname : jsstring) (options : PartialChunkingOptions)
  : list DocumentChunk :=
  let o := spread_options options in
  if negb (truthy text) || (js_length (trim text) =? 0) then []
  else
    let sentences := sentences_of text in
    if (Z.of_nat (length sentences) =? 0) then []
    else
      let chunks := flush_last fname (sentence_loop o fname sentences) in
      map (set_totalChunks (Z.of_nat (length chunks))) chunks.

(** ** chunkByPages *)

(** The object built by the callback of [pageChunks.map]. *)
Definition with_page_info (fname : jsstring) (pageIndex : nat)
    (chunkIdx : nat) (chunk : DocumentChunk) : DocumentChunk :=
  {| id := fname ++ str "-page" ++ number_to_string (pageIndex + 1)
            ++ str "-chunk-" ++ number_to_string chunkIdx;
     content := content chunk;
     metadata := {| filename := filename (metadata chunk);
                    page := Some (Z.of_nat (pageIndex + 1));
                    chunkIndex := chunkIndex (metadata chunk);
                    totalChunks := totalChunks (metadata chunk) |} |}.

(** [pages.forEach((pageText, pageIndex) => ...)], from [pageIndex] on,
    pushing onto [allChunks]. *)
Fixpoint pages_loop (fname : jsstring) (options : PartialChunkingOptions)
    (pages : list jsstring) (pageIndex : nat) (allChunks : list DocumentChunk)
  : list DocumentChunk :=
  match pages with
  | [] => allChunks
  | pageText :: pages' =>
      let pageChunks := chunkText pageText fname options in
      let chunksWithPageInfo :=
        mapi_from (with_page_info fname pageIndex) 0 pageChunks in
      pages_loop fname options pages' (S pageIndex)
        (allChunks ++ chunksWithPageInfo)
  end.

Definition chunkByPages (pages : list jsstring) (fname : jsstring)
    (options : PartialChunkingOptions) : list DocumentChunk :=
  pages_loop fname options pages 0 [].

(** ** mergeSmallChunks *)

(** The object built in the body of the inner [while]. *)
Definition absorb (currentChunk nextChunk : DocumentChunk) : DocumentChunk :=
  {| id := id currentChunk;
     content := content currentChunk ++ str " " ++ content nextChunk;
     metadata := {| filename := filename (metadata currentChunk);
                    page := page (metadata currentChunk);
                    chunkIndex := chunkIndex (metadata currentChunk);
                    totalChunks := totalChunks (metadata currentChunk) - 1 |} |}.

(** The inner [while], entered at index [i] with [currentChunk]; it gives
    back the index and the chunk it leaves the loop with.  Each turn
    advances [i], so [chunks.length] turns of [fuel] are never used up. *)
Fixpoint inner_while (fuel : nat) (chunks : list DocumentChunk) (minSize : Z)
    (i : nat) (currentChunk : DocumentChunk) : nat * DocumentChunk :=
  match fuel with
  | O => (i, currentChunk)
  | S fuel' =>
      match nth_error chunks (i + 1) with
      | None => (i, currentChunk)
      | Some nextChunk =>
          if (js_length (content currentChunk) <? minSize)
             && str_eqb (filename (metadata nextChunk))
                        (filename (metadata currentChunk))
          then inner_while fuel' chunks minSize (i + 1)
                 (absorb currentChunk nextChunk)
          else (i, currentChunk)
      end
  end.

(** The outer [while (i < chunks.length)]. *)
Fixpoint outer_while (fuel : nat) (chunks : list DocumentChunk) (minSize : Z)
    (i : nat) (mergedChunks : list DocumentChunk) : list DocumentChunk :=
  match fuel with
  | O => mergedChunks
  | S fuel' =>
      match nth_error chunks i with
      | None => mergedChunks
      | Some chunk =>
          let '(i', currentChunk) :=
            inner_while (length chunks) chunks minSize i chunk in
          outer_while fuel' chunks minSize (i' + 1)
            (mergedChunks ++ [currentChunk])
      end
  end.

Definition mergeSmallChunks (chunks : list DocumentChunk) (minSize : Z)
  : list DocumentChunk :=
  outer_while (length chunks) chunks minSize 0 [].

(** The same pass by recursion on the list: [currentChunk] is the chunk
    being grown and [rest] the chunks from index [i + 1] on.
    [mergeSmallChunks_by_recursion] below proves that the loops compute it. *)
Fixpoint merge_loop (minSize : Z) (currentChunk : DocumentChunk)
    (rest : list DocumentChunk) : list DocumentChunk :=
  match rest with
  | [] => [currentChunk]
  | nextChunk :: rest' =>
      if (js_length (content currentChunk) <? minSize)
         && str_eqb (filename (metadata nextChunk))
                    (filename (metadata currentChunk))
      then merge_loop minSize (absorb currentChunk nextChunk) rest'
      else currentChunk :: merge_loop minSize nextChunk rest'
  end.

Definition merge_list (minSize : Z) (chunks : list DocumentChunk)
  : list DocumentChunk :=
  match chunks with
  | [] => []
  | first :: rest => merge_loop minSize first rest
  end.

(** ** Specification-side vocabulary *)

(** The last [n] characters of [s]. *)
Definition last_chars (n : nat) (s : jsstring) : jsstring :=
  skipn (length s - n) s.

(** [p] is the position of the last [c] in [s]. *)
Definition is_last_index (c : N) (s : jsstring) (p : nat) : Prop :=
  nth_error s p = Some c /\ forall q, (p < q)%nat -> nth_error s q <> Some c.

(** [arr.join(' ')] *)
Fixpoint join_space (l : list jsstring) : jsstring :=
  match l with
  | [] => []
  | [s] => s
  | s :: l' => s ++ str " " ++ join_space l'
  end.

(** The greatest length of a sentence as the loop appends it: the trimmed
    piece and its re-appended ['.']. *)
Definition max_sentence_length (sentences : list jsstring) : Z :=
  fold_right (fun s m => Z.max (js_length (trim s) + 1) m) 0 sentences.

(** Page-wise chunking as the specification words it: the chunks of each
    page, relabelled, concatenated in page order. *)
Definition relabel_page (fname : jsstring) (options : PartialChunkingOptions)
    (p : nat) (pageText : jsstring) : list DocumentChunk :=
  mapi_from
    (fun i c =>
       {| id := fname ++ str "-page" ++ number_to_string p
                  ++ str "-chunk-" ++ number_to_string i;
          content := content c;
          metadata := {| filename := filename (metadata c);
                         page := Some (Z.of_nat p);
                         chunkIndex := chunkIndex (metadata c);
                         totalChunks := totalChunks (metadata c) |} |})
    0 (chunkText pageText fname options).

Definition chunkByPages_spec (pages : list jsstring) (fname : jsstring)
    (options : PartialChunkingOptions) : list DocumentChunk :=
  concat (mapi_from (fun i pageText => relabel_page fname options (S i) pageText)
                    0 pages).

(** Sample inputs of the test suite. *)
Definition small_chunk (cid body : jsstring) (md_page : option Z)
    (idx total : Z) : DocumentChunk :=
  {| id := cid; content := body;
     metadata := {| filename := str "t"; page := md_page;
                    chunkIndex := idx; totalChunks := total |} |}.

Definition test_long_chunk : jsstring :=
  str "This is a much longer chunk that should not be merged with others because it meets the minimum size requirement.".

Definition test_small_chunks : list DocumentChunk :=
  [ small_chunk (str "test-1") (str "Short") None 0 3;
    small_chunk (str "test-2") (str "Also short") None 1 3;
    small_chunk (str "test-3") test_long_chunk None 2 3 ].

Definition has_substring (needle hay : jsstring) : Prop :=
  exists pre post, hay = pre ++ needle ++ post.

(** The statement of the overlap rule for a text [text] and an overlap
    size [n], with the suffix [s] read as the last [n] characters. *)
Definition overlap_rule (text : jsstring) (n : Z) : Prop :=
  let s := last_chars (Z.to_nat n) text in
  (js_length text <= n -> getOverlapText text n = text) /\
  (n < js_length text ->
   (forall p, is_last_index dot s p -> (0 < p)%nat ->
              getOverlapText text n = trim (skipn (S p) s)) /\
   (~ In dot s \/ is_last_index dot s 0 -> getOverlapText text n = s)).

(** The condition of the inner [while] of [mergeSmallChunks] on a chunk
    and its successor. *)
Definition mergeable (minSize : Z) (c next : DocumentChunk) : bool :=
  (js_length (content c) <? minSize)
  && str_eqb (filename (metadata next)) (filename (metadata c)).

(** No chunk of [l] can absorb its successor. *)
Fixpoint settled (minSize : Z) (l : list DocumentChunk) : Prop :=
  match l with
  | [] => True
  | c :: l' =>
      match l' with
      | [] => True
      | next :: _ => mergeable minSize c next = false
      end /\ settled minSize l'
  end.

(** The three-chunk input of the merge example, with everything the
    example leaves open as a parameter. *)
Definition three_chunks (id1 id2 id3 long : jsstring) (p1 p2 p3 : option Z)
    (i1 i2 i3 t1 t2 t3 : Z) : list DocumentChunk :=
  [ small_chunk id1 (str "Short") p1 i1 t1;
    small_chunk id2 (str "Also short") p2 i2 t2;
    small_chunk id3 long p3 i3 t3 ].

(** The chunks of [chunkText] before the final count is written into them. *)
Definition raw_chunks (o : ChunkingOptions) (fname text : jsstring)
  : list DocumentChunk :=
  flush_last fname (sentence_loop o fname (sentences_of text)).

(** The options of the size-limit test: [{ chunkSize: 100, chunkOverlap: 20 }]. *)
Definition options_100_20 : PartialChunkingOptions :=
  {| chunkSize_opt := Some 100; chunkOverlap_opt := Some 20;
     minChunkSize_opt := None |}.

Definition single_sentence : jsstring := str "This is a single sentence.".

(** The id formats: [`${filename}-chunk-${k}`] and
    [`${filename}-page${p}-chunk-${k}`]. *)
Definition chunk_id (fname : jsstring) (k : nat) : jsstring :=
  fname ++ str "-chunk-" ++ number_to_string k.

Definition page_id (fname : jsstring) (p k : nat) : jsstring :=
  fname ++ str "-page" ++ number_to_string p
        ++ str "-chunk-" ++ number_to_string k.

(** The slack-free part of the size bound: [chunkSize], or [minChunkSize]
    below which a chunk goes on accumulating, or the overlap seed and its
    separating space. *)
Definition size_base (o : ChunkingOptions) : Z :=
  Z.max (chunkSize o) (Z.max (minChunkSize o) (chunkOverlap o + 1)).

Definition two_pages : list jsstring :=
  [str "Page one text."; str "Page two text."].

(** A text of the test suite and its first chunk under
    [{ chunkSize: 100, chunkOverlap: 20 }]. *)
Definition sample_text : jsstring :=
  str "This is the first paragraph. It contains multiple sentences to test the chunking functionality. This helps ensure that our text splitting works correctly. This is the second paragraph.".

Definition sample_chunks : list DocumentChunk :=
  chunkText sample_text (str "test.txt") options_100_20.

Definition sample_first_chunk : DocumentChunk :=
  {| id := str "test.txt-chunk-0";
     content := str "This is the first paragraph. It contains multiple sentences to test the chunking functionality. This helps ensure that our text splitting works correctly.";
     metadata := {| filename := str "test.txt"; page := None;
                    chunkIndex := 0; totalChunks := 2 |} |}.

(** Chunks of two files, the second and third of the same file. *)
Definition mixed_chunks : list DocumentChunk :=
  [ mkChunk (str "a-0") (str "Short") (mkMetadata (str "a.txt") None 0 1);
    mkChunk (str "b-0") (str "Also short") (mkMetadata (str "b.txt") None 0 2);
    mkChunk (str "b-1") (str "tail") (mkMetadata (str "b.txt") None 1 2) ].

(** Loop invariants of the sentence loop: the accumulator and the flushed
    chunks stay within [bound]; the chunks pushed so far are numbered
    0, 1, 2, ... up to the counter. *)
Definition within (bound : Z) (st : LoopState) : Prop :=
  js_length (st_currentChunk st) <= bound
  /\ Forall (fun c => js_length (content c) <= bound) (st_chunks st).

Definition numbered (fname : jsstring) (st : LoopState) : Prop :=
  map id (st_chunks st) = map (chunk_id fname) (seq 0 (st_chunkIndex st)).

Definition hyphen : N := 45.

(** ** Vocabulary of the further properties *)

(** A text that neither starts nor ends with a whitespace character. *)
Definition tight (b : jsstring) : Prop :=
  match b with [] => True | c :: _ => isWhiteSpace c = false end
  /\ match rev b with [] => True | c :: _ => isWhiteSpace c = false end.

Definition blank (s : jsstring) : Prop := forallb isWhiteSpace s = true.

(** A sentence as the loop of [chunkText] appends it. *)
Definition sentence_text (s : jsstring) : jsstring := trim s ++ [dot].

Definition ends_with_dot (s : jsstring) : Prop := exists b, s = b ++ [dot].

(** What the loop of [chunkText] records of a chunk besides its content. *)
Definition chunk_label (c : DocumentChunk) : jsstring * Metadata :=
  (id c, metadata c).

Definition fresh_label (fname : jsstring) (k : nat) : jsstring * Metadata :=
  (chunk_id fname k,
   {| filename := fname; page := None; chunkIndex := Z.of_nat k;
      totalChunks := 0 |}).

(** Every chunk content is a trimmed accumulator; when [minChunkSize] is
    positive, the accumulator is flushed only once it is not empty. *)
Definition well_trimmed (o : ChunkingOptions) (c : DocumentChunk) : Prop :=
  trim (content c) = content c
  /\ (1 <= minChunkSize o -> content c <> []).

(** A sentence, or several joined by spaces: tight and ending in ['.']. *)
Definition sentence_like (x : jsstring) : Prop := tight x /\ ends_with_dot x.

(** The sentence [s] has been kept: it is in the accumulator or in a chunk. *)
Definition kept (st : LoopState) (s : jsstring) : Prop :=
  has_substring (sentence_text s) (st_currentChunk st)
  \/ Exists (fun c => has_substring (sentence_text s) (content c))
            (st_chunks st).

(** The chunks hold the groups [groups] of sentences, and the accumulator
    the group [g], possibly after a space. *)
Definition grouped (done : list jsstring) (st : LoopState) : Prop :=
  exists groups g,
    concat groups ++ g = map sentence_text done
    /\ Forall (fun r => r <> []) groups
    /\ map content (st_chunks st) = map join_space groups
    /\ ((g = [] /\ st_currentChunk st = [])
        \/ (g <> []
            /\ (st_currentChunk st = join_space g
                \/ st_currentChunk st = str " " ++ join_space g))).


(** ** Parsing a model's answer into lines (src/lib/awsTitan.ts,
       [generateFollowUpQuestions]; the Granite service's [extractKeyPoints]) *)

Definition newline : N := 10.

(** [s.split(sep)] for a one-character separator: the pieces between the
    occurrences of [sep]; the empty string gives one empty piece. *)
Fixpoint split_char_from (sep : N) (piece s : jsstring) : list jsstring :=
  match s with
  | [] => [piece]
  | c :: s' =>
      if (c =? sep)%N then piece :: split_char_from sep [] s'
      else split_char_from sep (piece ++ [c]) s'
  end.

Definition split_char (s : jsstring) (sep : N) : list jsstring :=
  split_char_from sep [] s.

(** [s.startsWith(prefix)] *)
Fixpoint startsWith (s prefix : jsstring) : bool :=
  match prefix, s with
  | [], _ => true
  | p :: prefix', c :: s' => (c =? p)%N && startsWith s' prefix'
  | _ :: _, [] => false
  end.

(** [s.substring(start)]: [start] is clamped to [0 .. s.length]. *)
Definition substring (s : jsstring) (start : Z) : jsstring :=
  skipn (Z.to_nat (Z.min (Z.max start 0) (js_length s))) s.

(** [arr.slice(0, end)]: a negative [end] counts from the end of the array. *)
Definition array_slice0 {A : Type} (l : list A) (stop : Z) : list A :=
  let len := Z.of_nat (length l) in
  let final := if stop <? 0 then Z.max (len + stop) 0 else Z.min stop len in
  firstn (Z.to_nat final) l.

(** The chain both parsers apply to the generated text:
    [.split('\n').filter(line => line.trim().startsWith(marker))
     .map(line => line.trim().substring(cut).trim())
     .filter(q => q.length > 0)]. *)
Definition marked_lines (marker : jsstring) (cut : Z) (response : jsstring)
  : list jsstring :=
  filter (fun q => js_length q >? 0)
    (map (fun line => trim (substring (trim line) cut))
       (filter (fun line => startsWith (trim line) marker)
          (split_char response newline))).

(** [generateFollowUpQuestions], given what [generateText] produced: the
    generated text, or [None] when it threw (the [catch] returns []). *)
Definition generateFollowUpQuestions (generated : option jsstring)
  : list jsstring :=
  match generated with
  | Some response => array_slice0 (marked_lines (str "Q:") 2 response) 3
  | None => []
  end.

(** [extractKeyPoints], given [response.generated_text] or [None] when the
    call threw. *)
Definition extractKeyPoints (generated : option jsstring) (maxPoints : Z)
  : list jsstring :=
  match generated with
  | Some text => array_slice0 (marked_lines (str "-") 1 text) maxPoints
  | None => [str "Failed to extract key points."]
  end.

(** ** The upload route (src/app/api/upload/route.ts) *)

(** The class [[a-zA-Z0-9.-]]. *)
Definition isFilenameChar (c : N) : bool :=
  ((97 <=? c) && (c <=? 122) || (65 <=? c) && (c <=? 90)
   || (48 <=? c) && (c <=? 57) || (c =? 46) || (c =? 45))%N.

Definition underscore : N := 95.

(** [file.name.replace(/[^a-zA-Z0-9.-]/g, '_')] *)
Definition safeFilename (name : jsstring) : jsstring :=
  map (fun c => if isFilenameChar c then c else underscore) name.

(** The chunking of [processPDF], given the parsed [data.numpages] and
    [data.text]. *)
Definition processPDF_chunks (numpages : Z) (text fname : jsstring)
  : list DocumentChunk :=
  if numpages >? 1 then
    chunkText text fname
      {| chunkSize_opt := Some 1000; chunkOverlap_opt := Some 200;
         minChunkSize_opt := None |}
  else chunkText text fname no_options.

(** ** Environment and sign-in (src/lib/env.ts and the auth options) *)

(** [process.env]: the value of a variable, or [None] when it is not set. *)
Definition ProcessEnv := jsstring -> option jsstring.

(** [value || fallback] for an optional string. *)
Definition or_default (value : option jsstring) (fallback : jsstring)
  : jsstring :=
  match value with
  | Some v => if truthy v then v else fallback
  | None => fallback
  end.

(** The [env] object, as its entries in order. *)
Definition env (penv : ProcessEnv) : list (jsstring * jsstring) :=
  let entry name fallback :=
    (str name, or_default (penv (str name)) (str fallback)) in
  [ entry "IBM_DISCOVERY_APIKEY" "";
    entry "IBM_DISCOVERY_URL" "";
    entry "IBM_DISCOVERY_PROJECT_ID" "";
    entry "IBM_DISCOVERY_COLLECTION_ID" "";
    entry "WATSONX_APIKEY" "";
    entry "WATSONX_URL" "";
    entry "AWS_REGION" "us-east-1";
    entry "AWS_ACCESS_KEY_ID" "";
    entry "AWS_SECRET_ACCESS_KEY" "";
    entry "AWS_BEDROCK_TITAN_MODEL_ID" "amazon.titan-text-premier-v1";
    entry "NEXTAUTH_URL" "http://localhost:3000";
    entry "NEXTAUTH_SECRET" "";
    entry "ADMIN_USERNAME" "admin";
    entry "ADMIN_PASSWORD" "" ]%string.

(** [env[key]] *)
Fixpoint env_get (key : jsstring) (e : list (jsstring * jsstring))
  : option jsstring :=
  match e with
  | [] => None
  | (name, value) :: e' => if str_eqb name key then Some value else env_get key e'
  end.

Definition required : list jsstring :=
  map str [ "IBM_DISCOVERY_APIKEY"; "IBM_DISCOVERY_URL";
            "IBM_DISCOVERY_PROJECT_ID"; "IBM_DISCOVERY_COLLECTION_ID";
            "WATSONX_APIKEY"; "WATSONX_URL"; "AWS_ACCESS_KEY_ID";
            "AWS_SECRET_ACCESS_KEY"; "NEXTAUTH_SECRET"; "ADMIN_PASSWORD" ]%string.

(** [arr.join(sep)] *)
Fixpoint join_with (sep : jsstring) (l : list jsstring) : jsstring :=
  match l with
  | [] => []
  | [s] => s
  | s :: l' => s ++ sep ++ join_with sep l'
  end.

(** [!env[key]] *)
Definition env_falsy (e : list (jsstring * jsstring)) (key : jsstring) : bool :=
  match env_get key e with
  | Some v => negb (truthy v)
  | None => true
  end.

(** [validateEnv]: [Some message] is the [Error] it throws, [None] a normal
    return. *)
Definition validateEnv (penv : ProcessEnv) : option jsstring :=
  let missing := filter (env_falsy (env penv)) required in
  if Z.of_nat (length missing) >? 0
  then Some (str "Missing required environment variables: "
               ++ join_with (str ", ") missing)
  else None.

Record User := mkUser {
  user_id : jsstring;
  user_name : jsstring;
  user_email : jsstring
}.

(** A variable of [process.env] is set to a non-empty value. *)
Definition is_set (penv : ProcessEnv) (key : jsstring) : bool :=
  match penv key with
  | Some v => truthy v
  | None => false
  end.

(** [value === env[key]] for a string [value]: never true of a missing
    entry. *)
Definition equals_env (value : jsstring) (e : list (jsstring * jsstring))
    (key : jsstring) : bool :=
  match env_get key e with
  | Some v => str_eqb value v
  | None => false
  end.

(** [authorize(credentials)]: [credentials] is undefined ([None]) or holds
    a username and a password; the result is the user or [null]. *)
Definition authorize (penv : ProcessEnv)
    (credentials : option (jsstring * jsstring)) : option User :=
  match credentials with
  | None => None
  | Some (username, password) =>
      if equals_env username (env penv) (str "ADMIN_USERNAME")
         && equals_env password (env penv) (str "ADMIN_PASSWORD")
      then Some {| user_id := str "1"; user_name := str "Admin";
                   user_email := str "admin@genai-helpdesk.com" |}
      else None
  end.

(** The configured administrator name: [env.ADMIN_USERNAME]. *)
Definition admin_username (penv : ProcessEnv) : jsstring :=
  or_default (penv (str "ADMIN_USERNAME")) (str "admin").

(** [q] was read off a line of [response] that, trimmed, starts with
    [marker]: it is the trimmed rest of that line. *)
Definition marked_line_of (marker response q : jsstring) : Prop :=
  exists line rest,
    In line (split_char response newline)
    /\ trim line = marker ++ rest /\ q = trim rest.

(** A parsed line: not empty, trimmed, and without a line break. *)
Definition clean_line (q : jsstring) : Prop :=
  q <> [] /\ trim q = q /\ ~ In newline q.

(** A process environment with every required variable set, and the same
    without the administrator password. *)
Definition full_env : ProcessEnv :=
  fun key => if existsb (str_eqb key) required then Some (str "secret")
             else None.

Definition env_without_password : ProcessEnv :=
  fun key => if str_eqb key (str "ADMIN_PASSWORD") then None else full_env key.

(** Sample data of the further properties. *)
Definition sample_sentence : jsstring :=
  str " It contains multiple sentences to test the chunking functionality".

Definition page_one_chunk : DocumentChunk :=
  {| id := str "doc.pdf-page1-chunk-0";
     content := str "Page one text.";
     metadata := {| filename := str "doc.pdf"; page := Some 1;
                    chunkIndex := 0; totalChunks := 1 |} |}.

Definition long_chunks : list DocumentChunk :=
  [ small_chunk (str "test-3") test_long_chunk None 2 3;
    small_chunk (str "test-4") test_long_chunk None 3 3 ].

Definition sample_answer : jsstring :=
  str "Q: What next?" ++ [newline] ++ str "Some remark" ++ [newline]
    ++ str "  Q:  And then? " ++ [newline] ++ str "Q:".

Definition sample_points : jsstring :=
  str "- first point" ++ [newline] ++ str "-" ++ [newline]
    ++ str " - second point ".

(** * Properties *)

(** ** Strings *)

Section Strings.

Lemma js_length_app (a b : jsstring) :
  js_length (a ++ b) = js_length a + js_length b.
Proof. unfold js_length. rewrite length_app. lia. Qed.

Lemma js_length_nonneg (a : jsstring) : 0 <= js_length a.
Proof. unfold js_length. lia. Qed.

Lemma str_eqb_eq (a b : jsstring) : str_eqb a b = true <-> a = b.
Proof.
  revert b. induction a as [|x a IH]; intros [|y b]; simpl; split;
    try congruence; try discriminate.
  - intros H. apply andb_true_iff in H as [Hx Hab].
    apply N.eqb_eq in Hx. apply IH in Hab. congruence.
  - intros H. injection H as -> ->. rewrite N.eqb_refl. simpl. now apply IH.
Qed.

Lemma trimStart_length (s : jsstring) : (length (trimStart s) <= length s)%nat.
Proof.
  induction s as [|c s IH]; simpl; [lia|].
  destruct (isWhiteSpace c); simpl; lia.
Qed.

Lemma trim_length (s : jsstring) : js_length (trim s) <= js_length s.
Proof.
  unfold trim, trimEnd, js_length. rewrite length_rev.
  pose proof (trimStart_length (rev (trimStart s))) as H1.
  pose proof (trimStart_length s) as H2.
  rewrite length_rev in H1. lia.
Qed.

Lemma trimStart_nil_iff (s : jsstring) :
  trimStart s = [] <-> forallb isWhiteSpace s = true.
Proof.
  induction s as [|c s IH]; simpl; [tauto|].
  destruct (isWhiteSpace c); simpl; [exact IH|].
  split; discriminate.
Qed.

Lemma forallb_rev {A : Type} (f : A -> bool) (l : list A) :
  forallb f (rev l) = forallb f l.
Proof.
  induction l as [|x l IH]; simpl; [reflexivity|].
  rewrite forallb_app, IH. simpl. rewrite andb_true_r. apply andb_comm.
Qed.

Lemma trim_nil_iff (s : jsstring) :
  trim s = [] <-> forallb isWhiteSpace s = true.
Proof.
  unfold trim, trimEnd. split.
  - intros H. apply (f_equal (@rev N)) in H. rewrite rev_involutive in H.
    simpl in H. apply trimStart_nil_iff in H. rewrite forallb_rev in H.
    apply trimStart_nil_iff.
    destruct s as [|c s]; [reflexivity|]. simpl in *.
    destruct (isWhiteSpace c) eqn:Hc.
    + revert H. clear. induction s as [|d s IH]; simpl; [reflexivity|].
      destruct (isWhiteSpace d) eqn:Hd; [exact IH|].
      simpl. rewrite Hd. discriminate.
    + simpl in H. rewrite Hc in H. discriminate.
  - intros H. apply trimStart_nil_iff in H. rewrite H. reflexivity.
Qed.

Lemma trim_length_pos (s : jsstring) :
  (js_length (trim s) >? 0) = negb (forallb isWhiteSpace s).
Proof.
  destruct (forallb isWhiteSpace s) eqn:H; simpl.
  - apply trim_nil_iff in H. rewrite H. reflexivity.
  - destruct (trim s) eqn:Ht.
    + apply trim_nil_iff in Ht. congruence.
    + apply Z.gtb_lt. unfold js_length. simpl length. lia.
Qed.

Lemma trim_snoc_visible (s : jsstring) (c : N) :
  isWhiteSpace c = false -> (js_length (trim (s ++ [c])) >? 0) = true.
Proof.
  intros Hc. rewrite trim_length_pos, forallb_app. simpl.
  rewrite Hc, andb_false_r. reflexivity.
Qed.

Lemma not_In_nth_error (c : N) (s : jsstring) :
  ~ In c s <-> forall q, nth_error s q <> Some c.
Proof.
  split.
  - intros H q Hq. apply H. eapply nth_error_In; eauto.
  - intros H Hin. apply In_nth_error in Hin as [q Hq]. exact (H q Hq).
Qed.

Lemma lastIndexOf_from_spec (c : N) (s : jsstring) :
  forall i found,
    (forall p, is_last_index c s p ->
               lastIndexOf_from c s i found = i + Z.of_nat p) /\
    (~ In c s -> lastIndexOf_from c s i found = found).
Proof.
  induction s as [|x s IH]; intros i found; simpl.
  - split; [|reflexivity]. intros [|p] [H _]; discriminate H.
  - split.
    + intros [|p] [Hp Hlast].
      * simpl in Hp. injection Hp as ->. rewrite N.eqb_refl.
        destruct (IH (i + 1) i) as [_ Hnone]. rewrite Hnone; [lia|].
        apply not_In_nth_error. intros q. apply (Hlast (S q)). lia.
      * destruct (IH (i + 1) (if (x =? c)%N then i else found)) as [Hsome _].
        rewrite (Hsome p); [lia|]. split; [exact Hp|].
        intros q Hq. apply (Hlast (S q)). lia.
    + intros Hnot. destruct (N.eqb_spec x c) as [->|Hxc]; [tauto|].
      destruct (IH (i + 1) found) as [_ Hnone]. apply Hnone. tauto.
Qed.

Lemma lastIndexOf_found (s : jsstring) (c : N) (p : nat) :
  is_last_index c s p -> lastIndexOf s c = Z.of_nat p.
Proof.
  intros H. unfold lastIndexOf.
  destruct (lastIndexOf_from_spec c s 0 (-1)) as [Hsome _].
  rewrite (Hsome p H). lia.
Qed.

Lemma lastIndexOf_absent (s : jsstring) (c : N) :
  ~ In c s -> lastIndexOf s c = -1.
Proof.
  intros H. unfold lastIndexOf.
  destruct (lastIndexOf_from_spec c s 0 (-1)) as [_ Hnone]. now apply Hnone.
Qed.

Lemma lastIndexOf_range (s : jsstring) (c : N) :
  -1 <= lastIndexOf s c < js_length s.
Proof.
  unfold lastIndexOf, js_length.
  assert (G : forall i found, -1 <= found < i ->
            -1 <= lastIndexOf_from c s i found < i + Z.of_nat (length s)).
  { induction s as [|x s IH]; intros i found Hf; simpl length; simpl.
    - lia.
    - specialize (IH (i + 1) (if (x =? c)%N then i else found)).
      destruct (x =? c)%N; lia. }
  apply (G 0 (-1)). lia.
Qed.

Lemma slice_suffix (s : jsstring) (n : Z) :
  1 <= n < js_length s -> slice s (- n) = last_chars (Z.to_nat n) s.
Proof.
  unfold slice, last_chars, js_length. intros H.
  destruct (Z.ltb_spec (- n) 0); [|lia].
  f_equal. lia.
Qed.

Lemma slice_from_index (s : jsstring) (k : Z) :
  0 <= k <= js_length s -> slice s k = skipn (Z.to_nat k) s.
Proof.
  unfold slice, js_length. intros H.
  destruct (Z.ltb_spec k 0); [lia|]. f_equal. lia.
Qed.

Lemma slice_length (s : jsstring) (k : Z) : js_length (slice s k) <= js_length s.
Proof.
  unfold slice, js_length. rewrite length_skipn. lia.
Qed.

Lemma last_chars_length (n : nat) (s : jsstring) :
  (n <= length s)%nat -> length (last_chars n s) = n.
Proof. unfold last_chars. rewrite length_skipn. lia. Qed.

End Strings.

(** ** getOverlapText *)

Section Overlap.

(** C2, as stated, at overlap size 0: [text.slice(-0)] is the whole text,
    not its empty suffix, so ["a.b"] gives ["b"]. *)
Lemma getOverlapText_zero_counterexample : ~ overlap_rule (str "a.b") 0.
Proof.
  intros [_ H]. destruct H as [_ H]; [vm_compute; reflexivity|].
  assert (E : getOverlapText (str "a.b") 0 = []).
  { apply H. left. intros []. }
  vm_compute in E. discriminate E.
Qed.

(** C2 (amended): when the text is no longer than the overlap size it is
    returned unchanged; otherwise, for an overlap size of at least 1, with
    [s] the last [n] characters and [p] the position of the last ['.'] of
    [s], the result is the trimmed text after [p] when [p > 0], and [s]
    itself when [s] has no ['.'] or its last ['.'] is at position 0. *)
Theorem getOverlapText_spec (text : jsstring) (n : Z) :
  1 <= n -> overlap_rule text n.
Proof.
  intros Hn. unfold overlap_rule. split.
  - intros Hle. unfold getOverlapText.
    destruct (Z.leb_spec (js_length text) n); [reflexivity|lia].
  - intros Hlt. unfold getOverlapText.
    destruct (Z.leb_spec (js_length text) n); [lia|].
    rewrite slice_suffix by lia.
    set (s := last_chars (Z.to_nat n) text). split.
    + intros p Hp Hpos. rewrite (lastIndexOf_found _ _ _ Hp).
      destruct (Z.gtb_spec (Z.of_nat p) 0); [|lia].
      rewrite slice_from_index.
      * replace (Z.to_nat (Z.of_nat p + 1)) with (S p) by lia. reflexivity.
      * pose proof (lastIndexOf_range s dot) as R.
        rewrite (lastIndexOf_found _ _ _ Hp) in R. lia.
    + intros [Hnone | Hzero].
      * rewrite (lastIndexOf_absent _ _ Hnone). reflexivity.
      * rewrite (lastIndexOf_found _ _ _ Hzero). reflexivity.
Qed.

Lemma getOverlapText_spec_witness :
  1 <= 5
  /\ is_last_index dot (last_chars 5 (str "ab. cd")) 1
  /\ getOverlapText (str "ab. cd") 5 = str "cd".
Proof.
  assert (H : is_last_index dot (last_chars 5 (str "ab. cd")) 1).
  { split; [reflexivity|].
    intros q Hq.
    destruct q as [|[|[|[|[|[|q]]]]]]; try lia; cbn; discriminate. }
  split; [lia | split; [exact H|]].
  destruct (getOverlapText_spec (str "ab. cd") 5) as [_ Hlong]; [lia|].
  destruct Hlong as [Hafter _]; [vm_compute; reflexivity|].
  apply (Hafter 1%nat H). lia.
Defined.

(** The overlap seed is never longer than a positive overlap size. *)
Lemma getOverlapText_length (text : jsstring) (n : Z) :
  1 <= n -> js_length (getOverlapText text n) <= n.
Proof.
  intros Hn. unfold getOverlapText.
  destruct (Z.leb_spec (js_length text) n); [assumption|].
  rewrite slice_suffix by lia.
  assert (L : js_length (last_chars (Z.to_nat n) text) = n).
  { unfold js_length in *. rewrite last_chars_length; lia. }
  destruct (_ >? 0); [|lia].
  etransitivity; [apply trim_length|].
  etransitivity; [apply slice_length|]. lia.
Qed.

End Overlap.

(** ** mergeSmallChunks *)

Section Merge.

Variable minSize : Z.

Lemma merge_loop_unfold (c next : DocumentChunk) (rest : list DocumentChunk) :
  merge_loop minSize c (next :: rest) =
  if mergeable minSize c next
  then merge_loop minSize (absorb c next) rest
  else c :: merge_loop minSize next rest.
Proof. reflexivity. Qed.

Lemma skipn_nth_error_cons {A : Type} (l : list A) (i : nat) (x : A) :
  nth_error l i = Some x -> skipn i l = x :: skipn (S i) l.
Proof.
  revert i. induction l as [|y l IH]; intros [|i] H; try discriminate H.
  - injection H as ->. reflexivity.
  - simpl in H. simpl. now apply IH.
Qed.

Lemma skipn_nth_error_nil {A : Type} (l : list A) (i : nat) :
  nth_error l i = None -> skipn i l = [].
Proof. intros H. apply skipn_all2. now apply nth_error_None. Qed.

Lemma inner_while_spec (chunks : list DocumentChunk) (fuel : nat) :
  forall i cur i' cur',
    (length chunks <= i + 1 + fuel)%nat ->
    inner_while fuel chunks minSize i cur = (i', cur') ->
    (i <= i')%nat
    /\ merge_loop minSize cur (skipn (i + 1) chunks)
       = cur' :: merge_list minSize (skipn (i' + 1) chunks).
Proof.
  induction fuel as [|fuel IH]; intros i cur i' cur' Hfuel E; simpl in E.
  - injection E as <- <-. split; [lia|].
    rewrite skipn_all2 by lia. reflexivity.
  - destruct (nth_error chunks (i + 1)) as [next|] eqn:Hn.
    + rewrite (skipn_nth_error_cons _ _ _ Hn), merge_loop_unfold.
      unfold mergeable. destruct (_ && _).
      * apply IH in E; [|lia]. destruct E as [Hle E]. split; [lia|].
        rewrite <- E. f_equal. f_equal. lia.
      * injection E as <- <-. split; [lia|].
        rewrite (skipn_nth_error_cons _ _ _ Hn). reflexivity.
    + injection E as <- <-. split; [lia|].
      rewrite (skipn_nth_error_nil _ _ Hn). reflexivity.
Qed.

Lemma outer_while_spec (chunks : list DocumentChunk) (fuel : nat) :
  forall i merged,
    (length chunks <= i + fuel)%nat ->
    outer_while fuel chunks minSize i merged
    = merged ++ merge_list minSize (skipn i chunks).
Proof.
  induction fuel as [|fuel IH]; intros i merged Hfuel; simpl.
  - rewrite skipn_all2 by lia. now rewrite app_nil_r.
  - destruct (nth_error chunks i) as [c|] eqn:Hc.
    + destruct (inner_while (length chunks) chunks minSize i c)
        as [i' cur'] eqn:E.
      apply inner_while_spec in E; [|lia]. destruct E as [Hle E].
      rewrite IH by lia. rewrite (skipn_nth_error_cons _ _ _ Hc).
      change (merge_list minSize (c :: skipn (S i) chunks))
        with (merge_loop minSize c (skipn (S i) chunks)).
      replace (S i) with (i + 1)%nat by lia. rewrite E.
      now rewrite <- app_assoc.
    + rewrite (skipn_nth_error_nil _ _ Hc). now rewrite app_nil_r.
Qed.

(** The two loops compute the recursive pass, without running out of
    fuel. *)
Lemma mergeSmallChunks_by_recursion (cs : list DocumentChunk) :
  mergeSmallChunks cs minSize = merge_list minSize cs.
Proof. unfold mergeSmallChunks. now rewrite outer_while_spec by lia. Qed.

(** The first chunk of the output keeps the filename and the size test of
    the chunk the loop started from, as far as its predecessor can tell. *)
Lemma merge_loop_head (c : DocumentChunk) (rest : list DocumentChunk) :
  exists h t, merge_loop minSize c rest = h :: t
              /\ filename (metadata h) = filename (metadata c).
Proof.
  revert c. induction rest as [|next rest IH]; intros c.
  - exists c, []. split; reflexivity.
  - rewrite merge_loop_unfold. destruct (mergeable minSize c next).
    + destruct (IH (absorb c next)) as (h & t & E & F).
      exists h, t. split; [exact E | exact F].
    + exists c, (merge_loop minSize next rest). split; reflexivity.
Qed.

Lemma merge_loop_settled (c : DocumentChunk) (rest : list DocumentChunk) :
  settled minSize (merge_loop minSize c rest).
Proof.
  revert c. induction rest as [|next rest IH]; intros c.
  - simpl. tauto.
  - rewrite merge_loop_unfold. destruct (mergeable minSize c next) eqn:M.
    + apply IH.
    + destruct (merge_loop_head next rest) as (h & t & E & F).
      specialize (IH next). rewrite E in *. simpl. split; [|exact IH].
      unfold mergeable in *. rewrite F. exact M.
Qed.

Lemma merge_loop_fixed (c : DocumentChunk) (rest : list DocumentChunk) :
  settled minSize (c :: rest) -> merge_loop minSize c rest = c :: rest.
Proof.
  revert c. induction rest as [|next rest IH]; intros c H.
  - reflexivity.
  - rewrite merge_loop_unfold. destruct H as [M H]. rewrite M.
    f_equal. apply IH. exact H.
Qed.

Lemma merge_list_settled (cs : list DocumentChunk) :
  settled minSize (merge_list minSize cs).
Proof.
  destruct cs as [|c rest]; simpl; [exact I|]. apply merge_loop_settled.
Qed.

Lemma settled_adjacent (l : list DocumentChunk) :
  settled minSize l ->
  forall i c next, nth_error l i = Some c -> nth_error l (S i) = Some next ->
                   mergeable minSize c next = false.
Proof.
  induction l as [|x l IH]; intros H i c next Hc Hn.
  - destruct i; discriminate Hc.
  - destruct H as [M H]. destruct i as [|i].
    + simpl in Hc, Hn. injection Hc as ->. destruct l; [discriminate Hn|].
      simpl in Hn. injection Hn as ->. exact M.
    + simpl in Hc, Hn. eapply IH; eauto.
Qed.

(** C5: merging is idempotent, and in the merged output no chunk that is
    still below [minSize] is directly followed by a chunk of the same
    filename. *)
Theorem mergeSmallChunks_idempotent (cs : list DocumentChunk) :
  mergeSmallChunks (mergeSmallChunks cs minSize) minSize
  = mergeSmallChunks cs minSize
  /\ forall i c next,
       nth_error (mergeSmallChunks cs minSize) i = Some c ->
       nth_error (mergeSmallChunks cs minSize) (S i) = Some next ->
       js_length (content c) < minSize ->
       filename (metadata next) <> filename (metadata c).
Proof.
  rewrite !mergeSmallChunks_by_recursion.
  pose proof (merge_list_settled cs) as H. split.
  - destruct (merge_list minSize cs) as [|c rest]; [reflexivity|].
    simpl. apply merge_loop_fixed. exact H.
  - intros i c next Hc Hn Hsmall Hsame.
    pose proof (settled_adjacent _ H i c next Hc Hn) as M.
    unfold mergeable in M.
    destruct (Z.ltb_spec (js_length (content c)) minSize); [|lia].
    simpl in M. apply str_eqb_eq in Hsame. congruence.
Qed.

Lemma join_space_cons (a b : jsstring) (l : list jsstring) :
  join_space (a :: b :: l) = a ++ str " " ++ join_space (b :: l).
Proof. reflexivity. Qed.

Lemma join_space_absorbed (a b : jsstring) (l : list jsstring) :
  join_space ((a ++ str " " ++ b) :: l) = join_space (a :: b :: l).
Proof.
  rewrite join_space_cons. destruct l as [|x l].
  - reflexivity.
  - rewrite !join_space_cons. now rewrite <- !app_assoc.
Qed.

Lemma join_space_snoc (l : list jsstring) (x : jsstring) :
  l <> [] -> join_space (l ++ [x]) = join_space l ++ str " " ++ x.
Proof.
  induction l as [|a l IH]; intros H; [congruence|].
  destruct l as [|b l]; [reflexivity|].
  change ((a :: b :: l) ++ [x]) with (a :: (b :: l) ++ [x]).
  change ((b :: l) ++ [x]) with (b :: (l ++ [x])) at 1.
  rewrite !join_space_cons.
  change (b :: (l ++ [x])) with ((b :: l) ++ [x]).
  rewrite IH by discriminate. now rewrite <- !app_assoc.
Qed.

Lemma merge_loop_join (c : DocumentChunk) (rest : list DocumentChunk) :
  join_space (map content (merge_loop minSize c rest))
  = join_space (content c :: map content rest).
Proof.
  revert c. induction rest as [|next rest IH]; intros c.
  - reflexivity.
  - rewrite merge_loop_unfold. destruct (mergeable minSize c next).
    + rewrite IH. simpl content. apply join_space_absorbed.
    + specialize (IH next).
      destruct (merge_loop_head next rest) as (h & t & E & _).
      rewrite E in *. simpl map in *. rewrite !join_space_cons.
      now rewrite IH.
Qed.

(** The output contents are the space-joins of consecutive runs of inputs:
    [g] is the run already absorbed into [c]. *)
Lemma merge_loop_runs (c : DocumentChunk) (rest g : list DocumentChunk) :
  g <> [] -> content c = join_space (map content g) ->
  exists runs,
    concat runs = g ++ rest /\ Forall (fun r => r <> []) runs
    /\ map content (merge_loop minSize c rest)
       = map (fun r => join_space (map content r)) runs.
Proof.
  revert c g. induction rest as [|next rest IH]; intros c g Hg Hc.
  - exists [g]. simpl. rewrite !app_nil_r. repeat split; [|congruence].
    constructor; [exact Hg | constructor].
  - rewrite merge_loop_unfold. destruct (mergeable minSize c next).
    + destruct (IH (absorb c next) (g ++ [next])) as (runs & E & Hne & Hm).
      * destruct g; discriminate.
      * change (content (absorb c next))
          with (content c ++ str " " ++ content next).
        rewrite map_app. simpl map. rewrite join_space_snoc, Hc; [reflexivity|].
        destruct g; [congruence|discriminate].
      * exists runs. rewrite <- app_assoc in E. auto.
    + destruct (IH next [next]) as (runs & E & Hne & Hm);
        [discriminate | reflexivity |].
      exists (g :: runs). simpl. rewrite E, Hm, Hc. repeat split.
      constructor; assumption.
Qed.

(** C10: merging loses, duplicates and reorders no text: the space-join of
    the output contents is the space-join of the input contents, each
    output content being the space-join of a run of consecutive inputs. *)
Theorem mergeSmallChunks_preserves_text (cs : list DocumentChunk) :
  join_space (map content (mergeSmallChunks cs minSize))
  = join_space (map content cs)
  /\ exists runs,
       concat runs = cs /\ Forall (fun r => r <> []) runs
       /\ map content (mergeSmallChunks cs minSize)
          = map (fun r => join_space (map content r)) runs.
Proof.
  rewrite mergeSmallChunks_by_recursion. destruct cs as [|c rest].
  - split; [reflexivity|]. exists []. repeat split. constructor.
  - split; [apply merge_loop_join|].
    destruct (merge_loop_runs c rest [c]) as (runs & E & Hne & Hm);
      [discriminate | reflexivity |].
    exists runs. auto.
Qed.

End Merge.

Section MergeExample.

(** C1, as stated, on the chunks of the test suite: the first output
    content is not ["Short Also short"], since the merged chunk, still
    shorter than 20, goes on to absorb the third chunk. *)
Lemma mergeSmallChunks_example_counterexample :
  ~ ((length (mergeSmallChunks test_small_chunks 20)
      < length test_small_chunks)%nat
     /\ option_map content (hd_error (mergeSmallChunks test_small_chunks 20))
        = Some (str "Short Also short")).
Proof. intros [_ H]. vm_compute in H. discriminate H. Qed.

(** C1 (amended): on the three chunks ["Short"], ["Also short"] and a text
    of length at least 20, all of filename ["t"], merging with [minSize = 20]
    returns a single chunk, so a result strictly shorter than the input,
    whose content is ["Short Also short"] followed by a space and the
    third chunk's content. *)
Theorem mergeSmallChunks_example (id1 id2 id3 long : jsstring)
    (p1 p2 p3 : option Z) (i1 i2 i3 t1 t2 t3 : Z) :
  20 <= js_length long ->
  let input := three_chunks id1 id2 id3 long p1 p2 p3 i1 i2 i3 t1 t2 t3 in
  (length (mergeSmallChunks input 20) < length input)%nat
  /\ map content (mergeSmallChunks input 20)
     = [str "Short Also short" ++ str " " ++ long].
Proof.
  intros _. cbv zeta. rewrite mergeSmallChunks_by_recursion.
  split; [simpl; lia | reflexivity].
Qed.

Lemma mergeSmallChunks_example_witness :
  20 <= js_length test_long_chunk
  /\ (length (mergeSmallChunks test_small_chunks 20)
      < length test_small_chunks)%nat
  /\ map content (mergeSmallChunks test_small_chunks 20)
     = [str "Short Also short" ++ str " " ++ test_long_chunk].
Proof.
  split; [vm_compute; discriminate|].
  apply (mergeSmallChunks_example (str "test-1") (str "test-2") (str "test-3")
           test_long_chunk None None None 0 1 2 3 3 3).
  vm_compute; discriminate.
Defined.

End MergeExample.

(** ** chunkText *)

Section ChunkText.

Variable fname : jsstring.

Lemma chunkText_cases (text : jsstring) (options : PartialChunkingOptions) :
  chunkText text fname options = []
  \/ chunkText text fname options
     = map (set_totalChunks
              (Z.of_nat (length (raw_chunks (spread_options options) fname text))))
           (raw_chunks (spread_options options) fname text).
Proof.
  unfold chunkText, raw_chunks.
  destruct (negb (truthy text) || (js_length (trim text) =? 0)); [now left|].
  destruct (Z.of_nat (length (sentences_of text)) =? 0); [now left | now right].
Qed.

(** An invariant of the sentence loop that every step preserves, for
    sentences satisfying [Q], holds when the loop ends. *)
Lemma sentence_loop_invariant (o : ChunkingOptions)
    (P : LoopState -> Prop) (Q : jsstring -> Prop) :
  (forall st s, Q s -> P st -> P (sentence_step o fname st s)) ->
  forall sentences st,
    Forall Q sentences -> P st ->
    P (fold_left (sentence_step o fname) sentences st).
Proof.
  intros Hstep sentences.
  induction sentences as [|s l IH]; intros st HQ HP; simpl; [exact HP|].
  inversion HQ; subst. apply IH; [assumption|]. now apply Hstep.
Qed.

(** C3: every chunk of a result carries the length of the result as its
    [totalChunks]. *)
Theorem chunkText_totalChunks (text : jsstring)
    (options : PartialChunkingOptions) (c : DocumentChunk) :
  In c (chunkText text fname options) ->
  totalChunks (metadata c)
  = Z.of_nat (length (chunkText text fname options)).
Proof.
  destruct (chunkText_cases text options) as [E | E]; rewrite E.
  - intros [].
  - intros H. apply in_map_iff in H as (x & <- & _).
    rewrite length_map. reflexivity.
Qed.

Lemma split_from_plain (in_run : bool) (piece s : jsstring) :
  forallb (fun c => negb (isTerminator c)) s = true ->
  split_from in_run piece s
  = match s with [] => [piece] | _ :: _ => [piece ++ s] end.
Proof.
  revert in_run piece. induction s as [|c s IH]; intros in_run piece H.
  - reflexivity.
  - simpl in H. apply andb_true_iff in H as [Hc Hs].
    simpl. destruct (isTerminator c); [discriminate Hc|].
    rewrite (IH false (piece ++ [c]) Hs). rewrite <- app_assoc. simpl.
    destruct s; [|reflexivity]. reflexivity.
Qed.

Lemma sentences_of_plain (text : jsstring) :
  forallb (fun c => negb (isTerminator c)) text = true ->
  forallb isWhiteSpace text = false ->
  sentences_of text = [text].
Proof.
  intros Hplain Hvis. unfold sentences_of, split_terminators.
  rewrite (split_from_plain false [] text Hplain).
  destruct text as [|c t]; [discriminate Hvis|].
  simpl app. simpl filter. rewrite trim_length_pos, Hvis. reflexivity.
Qed.

Lemma chunkText_no_sentence (text : jsstring) (options : PartialChunkingOptions) :
  sentences_of text = [] -> chunkText text fname options = [].
Proof.
  intros H. unfold chunkText. rewrite H.
  destruct (negb (truthy text) || (js_length (trim text) =? 0)); reflexivity.
Qed.

Lemma chunkText_blank (text : jsstring) (options : PartialChunkingOptions) :
  forallb isWhiteSpace text = true -> chunkText text fname options = [].
Proof.
  intros H. unfold chunkText. apply trim_nil_iff in H. rewrite H.
  rewrite orb_true_r. reflexivity.
Qed.

(** C8: an empty text, a text of whitespace only, and a text whose pieces
    between runs of ['.'], ['!'], ['?'] are all empty after trimming give
    the empty list, whatever the filename and the options; so do [""] and
    ["   "].  The function is total: it returns a list and signals no
    error. *)
Theorem chunkText_empty (options : PartialChunkingOptions) :
  (forall text,
      text = []
      \/ Forall (fun c => isWhiteSpace c = true) text
      \/ Forall (fun piece => trim piece = []) (split_terminators text) ->
      chunkText text fname options = [])
  /\ chunkText (str "") fname options = []
  /\ chunkText (str "   ") fname options = [].
Proof.
  split; [|split; apply chunkText_blank; reflexivity].
  intros text [-> | [H | H]].
  - reflexivity.
  - apply chunkText_blank. apply forallb_forall.
    rewrite Forall_forall in H. exact H.
  - apply chunkText_no_sentence. unfold sentences_of.
    induction H as [|piece l Hp _ IH]; [reflexivity|].
    simpl. rewrite Hp. exact IH.
Qed.

Lemma sentence_step_first (o : ChunkingOptions) (s : jsstring) :
  1 <= minChunkSize o ->
  sentence_step o fname
    {| st_chunks := []; st_currentChunk := []; st_chunkIndex := 0 |} s
  = {| st_chunks := []; st_currentChunk := trim s ++ [dot];
       st_chunkIndex := 0 |}.
Proof.
  intros H. unfold sentence_step. cbn [st_chunks st_currentChunk st_chunkIndex].
  replace (js_length [] >=? minChunkSize o) with false.
  - rewrite andb_false_r. reflexivity.
  - symmetry. change (js_length []) with 0. unfold Z.geb.
    destruct (0 ?= minChunkSize o) eqn:E; try reflexivity.
    + apply Z.compare_eq in E. lia.
    + apply Z.compare_gt_iff in E. lia.
Qed.

(** C7: the single sentence of the test suite gives exactly one chunk, whose
    trimmed content is the sentence; with the default options a text that
    is not blank and has no ['.'], ['!'] or ['?'] gives exactly one chunk;
    and [chunkText] returns a list for every string: no step of the
    algorithm can fail. *)
Theorem chunkText_single_chunk :
  (exists c, chunkText single_sentence fname no_options = [c]
             /\ trim (content c) = single_sentence)
  /\ (forall text,
        (exists c, In c text /\ isWhiteSpace c = false) ->
        (forall c, In c text -> isTerminator c = false) ->
        exists c, chunkText text fname no_options = [c])
  /\ (forall text, exists cs, chunkText text fname no_options = cs).
Proof.
  split; [|split].
  - exists (set_totalChunks 1 (new_chunk fname single_sentence 0)).
    split; reflexivity.
  - intros text (w & Hin & Hw) Hplain.
    assert (Hvis : forallb isWhiteSpace text = false).
    { destruct (forallb isWhiteSpace text) eqn:E; [|reflexivity].
      rewrite forallb_forall in E. rewrite (E w Hin) in Hw. discriminate Hw. }
    assert (Hp : forallb (fun c => negb (isTerminator c)) text = true).
    { apply forallb_forall. intros c Hc. now rewrite (Hplain c Hc). }
    exists (set_totalChunks 1 (new_chunk fname (trim text ++ [dot]) 0)).
    unfold chunkText. rewrite (sentences_of_plain text Hp Hvis).
    replace (negb (truthy text) || (js_length (trim text) =? 0)) with false.
    + change (Z.of_nat (length [text]) =? 0) with false. cbv iota.
      unfold sentence_loop, fold_left.
      rewrite sentence_step_first by (vm_compute; discriminate).
      unfold flush_last. cbn [st_chunks st_currentChunk st_chunkIndex].
      rewrite (trim_snoc_visible (trim text) dot eq_refl). reflexivity.
    + symmetry. apply orb_false_iff. split.
      * destruct text; [discriminate Hvis | reflexivity].
      * pose proof (trim_length_pos text) as Hpos. rewrite Hvis in Hpos.
        apply Z.gtb_lt in Hpos. apply Z.eqb_neq. lia.
  - intros text. eexists. reflexivity.
Qed.

Lemma max_sentence_length_nonneg (l : list jsstring) :
  0 <= max_sentence_length l.
Proof. induction l; simpl; lia. Qed.

Lemma max_sentence_length_bound (l : list jsstring) :
  Forall (fun s => js_length (trim s) + 1 <= max_sentence_length l) l.
Proof.
  induction l as [|s l IH]; constructor.
  - simpl. lia.
  - eapply Forall_impl; [|exact IH]. simpl. intros. lia.
Qed.

Lemma sentence_step_within (o : ChunkingOptions) (S0 : Z)
    (st : LoopState) (s : jsstring) :
  1 <= chunkOverlap o ->
  js_length (trim s) + 1 <= S0 ->
  within (size_base o + S0) st ->
  within (size_base o + S0) (sentence_step o fname st s).
Proof.
  intros Hov Hs [Hcur Hall]. unfold size_base in *.
  unfold sentence_step. cbv zeta.
  pose proof (js_length_nonneg (trim s)) as Hts.
  pose proof (js_length_nonneg (st_currentChunk st)) as Hc0.
  assert (Hst : js_length (trim s ++ [dot]) = js_length (trim s) + 1).
  { rewrite js_length_app. reflexivity. }
  rewrite Hst.
  destruct (Z.gtb_spec (js_length (st_currentChunk st) + (js_length (trim s) + 1))
                       (chunkSize o)) as [Hbig | Hsmall];
    [destruct (Z.geb_spec (js_length (st_currentChunk st)) (minChunkSize o))
       as [Hmin | Hmin] |]; cbn [andb]; split;
    cbn [st_chunks st_currentChunk st_chunkIndex]; try exact Hall.
  - rewrite !js_length_app.
    pose proof (getOverlapText_length (st_currentChunk st) _ Hov).
    change (js_length (str " ")) with 1. change (js_length [dot]) with 1. lia.
  - apply Forall_app. split; [exact Hall|]. constructor; [|constructor].
    cbn [content new_chunk].
    pose proof (trim_length (st_currentChunk st)). lia.
  - rewrite !js_length_app. change (js_length [dot]) with 1.
    destruct (truthy (st_currentChunk st));
      [change (js_length (str " ")) with 1 | change (js_length []) with 0]; lia.
  - rewrite !js_length_app. change (js_length [dot]) with 1.
    destruct (truthy (st_currentChunk st));
      [change (js_length (str " ")) with 1 | change (js_length []) with 0]; lia.
Qed.

Lemma raw_chunks_within (o : ChunkingOptions) (text : jsstring) :
  1 <= chunkOverlap o ->
  Forall (fun c => js_length (content c)
                   <= size_base o + max_sentence_length (sentences_of text))
         (raw_chunks o fname text).
Proof.
  intros Hov. unfold raw_chunks, sentence_loop.
  set (S0 := max_sentence_length (sentences_of text)).
  assert (H : within (size_base o + S0)
                (fold_left (sentence_step o fname) (sentences_of text)
                   {| st_chunks := []; st_currentChunk := [];
                      st_chunkIndex := 0 |})).
  { apply (sentence_loop_invariant o (within (size_base o + S0))
             (fun s => js_length (trim s) + 1 <= S0)).
    - intros st s Hs Hst. now apply sentence_step_within.
    - apply max_sentence_length_bound.
    - split; [|constructor]. cbn [st_currentChunk].
      change (js_length []) with 0.
      pose proof (max_sentence_length_nonneg (sentences_of text)).
      unfold size_base. fold S0 in H. lia. }
  destruct H as [Hcur Hall]. unfold flush_last.
  destruct (_ >? 0); [|exact Hall].
  apply Forall_app. split; [exact Hall|]. constructor; [|constructor].
  cbn [content new_chunk]. etransitivity; [apply trim_length | exact Hcur].
Qed.

(** C4: with [chunkSize = 100], [chunkOverlap = 20] and the default
    [minChunkSize], no chunk is longer than 100 plus the greatest length of
    a sentence as appended (trimmed, with its ['.']). *)
Theorem chunkText_size_bound (text : jsstring) (c : DocumentChunk) :
  In c (chunkText text fname options_100_20) ->
  js_length (content c) <= 100 + max_sentence_length (sentences_of text).
Proof.
  destruct (chunkText_cases text options_100_20) as [E | E]; rewrite E.
  - intros [].
  - intros H. apply in_map_iff in H as (x & <- & Hx).
    pose proof (raw_chunks_within (spread_options options_100_20) text) as B.
    rewrite Forall_forall in B. apply (B ltac:(vm_compute; discriminate) x Hx).
Qed.

End ChunkText.

(** ** Chunk ids *)

Section Ids.

Lemma digits_of_uint_inj (d e : uint) :
  digits_of_uint d = digits_of_uint e -> d = e.
Proof.
  revert e. induction d; intros [] H; simpl in H;
    try discriminate H; try reflexivity;
    injection H as H; f_equal; now apply IHd.
Qed.

Lemma number_to_string_inj (m n : nat) :
  number_to_string m = number_to_string n -> m = n.
Proof.
  intros H. apply Unsigned.to_uint_inj. now apply digits_of_uint_inj.
Qed.

Lemma digits_no_hyphen (d : uint) : ~ In hyphen (digits_of_uint d).
Proof.
  induction d; simpl; intros H; try (destruct H as [H | H];
    [discriminate H | exact (IHd H)]). exact H.
Qed.

(** Two texts cut at their first [sep] agree on both sides of it. *)
Lemma first_separator_inj (sep : N) (a1 a2 b1 b2 : jsstring) :
  ~ In sep a1 -> ~ In sep a2 ->
  a1 ++ sep :: b1 = a2 ++ sep :: b2 -> a1 = a2 /\ b1 = b2.
Proof.
  revert a2. induction a1 as [|x a1 IH]; intros [|y a2] H1 H2 E; simpl in *.
  - injection E as E. now split.
  - injection E as E _. exfalso. apply H2. now left.
  - injection E as E _. exfalso. apply H1. now left.
  - injection E as Ex E. subst y.
    destruct (IH a2) as [-> ->]; try tauto.
Qed.

Lemma chunk_id_inj (fname : jsstring) (m n : nat) :
  chunk_id fname m = chunk_id fname n -> m = n.
Proof.
  unfold chunk_id. intros H.
  apply app_inv_head in H. apply app_inv_head in H.
  now apply number_to_string_inj.
Qed.

Lemma page_id_inj (fname : jsstring) (p q m n : nat) :
  page_id fname p m = page_id fname q n -> p = q /\ m = n.
Proof.
  unfold page_id. intros H.
  apply app_inv_head in H. apply app_inv_head in H.
  change (str "-chunk-") with (hyphen :: str "chunk-") in H.
  simpl app in H.
  apply first_separator_inj in H; try apply digits_no_hyphen.
  destruct H as [Hp Hm]. injection Hm as Hm.
  split; now apply number_to_string_inj.
Qed.

Lemma NoDup_map_injective {A B : Type} (f : A -> B) (l : list A) :
  (forall x y, f x = f y -> x = y) -> NoDup l -> NoDup (map f l).
Proof.
  intros Hf H. induction H as [|x l Hx _ IH]; simpl; constructor; [|exact IH].
  intros Hin. apply in_map_iff in Hin as (y & E & Hy).
  apply Hf in E. subst y. exact (Hx Hy).
Qed.

Variable fname : jsstring.

Lemma sentence_step_numbered (o : ChunkingOptions) (st : LoopState)
    (s : jsstring) :
  numbered fname st -> numbered fname (sentence_step o fname st s).
Proof.
  unfold numbered, sentence_step. cbv zeta. intros H.
  destruct (_ && _); cbn [st_chunks st_chunkIndex]; [|exact H].
  rewrite map_app, seq_S, map_app, H. reflexivity.
Qed.

Lemma raw_chunks_ids (o : ChunkingOptions) (text : jsstring) :
  map id (raw_chunks o fname text)
  = map (chunk_id fname) (seq 0 (length (raw_chunks o fname text))).
Proof.
  assert (G : exists n, map id (raw_chunks o fname text)
                        = map (chunk_id fname) (seq 0 n)).
  { unfold raw_chunks, sentence_loop.
    assert (H : numbered fname (fold_left (sentence_step o fname) (sentences_of text)
                   {| st_chunks := []; st_currentChunk := [];
                      st_chunkIndex := 0 |})).
    { apply (sentence_loop_invariant fname o (numbered fname) (fun _ => True)).
      - intros st s _. apply sentence_step_numbered.
      - apply Forall_forall. intros; exact I.
      - reflexivity. }
    unfold numbered in H. unfold flush_last. destruct (_ >? 0).
    - eexists (S _). rewrite map_app, seq_S, map_app, H. reflexivity.
    - eexists. exact H. }
  destruct G as [n G].
  assert (L : length (raw_chunks o fname text) = n).
  { apply (f_equal (@length _)) in G.
    now rewrite !length_map, length_seq in G. }
  rewrite L. exact G.
Qed.

Lemma chunkText_ids (text : jsstring) (options : PartialChunkingOptions) :
  map id (chunkText text fname options)
  = map (chunk_id fname) (seq 0 (length (chunkText text fname options))).
Proof.
  destruct (chunkText_cases fname text options) as [E | E]; rewrite E.
  - reflexivity.
  - rewrite length_map, map_map. cbn [id set_totalChunks].
    apply raw_chunks_ids.
Qed.

Lemma mapi_from_ext {A B : Type} (f g : nat -> A -> B) (i : nat) (l : list A) :
  (forall k x, f k x = g k x) -> mapi_from f i l = mapi_from g i l.
Proof.
  intros H. revert i. induction l as [|x l IH]; intros i; simpl;
    [reflexivity|]. now rewrite H, IH.
Qed.

Lemma mapi_from_ids {A : Type} (f : nat -> A -> DocumentChunk)
    (g : nat -> jsstring) (i : nat) (l : list A) :
  (forall k x, id (f k x) = g k) ->
  map id (mapi_from f i l) = map g (seq i (length l)).
Proof.
  intros H. revert i. induction l as [|x l IH]; intros i; simpl;
    [reflexivity|]. now rewrite H, IH.
Qed.

Variable options : PartialChunkingOptions.

Lemma pages_loop_spec (pages : list jsstring) (i : nat)
    (allChunks : list DocumentChunk) :
  pages_loop fname options pages i allChunks
  = allChunks
    ++ concat (mapi_from (fun j pageText =>
                            relabel_page fname options (S j) pageText)
                         i pages).
Proof.
  revert i allChunks. induction pages as [|pageText pages IH];
    intros i allChunks; simpl.
  - now rewrite app_nil_r.
  - rewrite IH, <- app_assoc. f_equal. f_equal.
    unfold relabel_page. apply mapi_from_ext. intros k c.
    unfold with_page_info. now rewrite Nat.add_1_r.
Qed.

Lemma relabel_page_ids (p : nat) (pageText : jsstring) :
  map id (relabel_page fname options p pageText)
  = map (page_id fname p)
        (seq 0 (length (chunkText pageText fname options))).
Proof. unfold relabel_page. now apply mapi_from_ids. Qed.

Lemma paged_ids_NoDup (pages : list jsstring) (i : nat) :
  let ids := map id (concat (mapi_from
                 (fun j pageText => relabel_page fname options (S j) pageText)
                 i pages)) in
  NoDup ids
  /\ forall x, In x ids -> exists p k, (i < p)%nat /\ x = page_id fname p k.
Proof.
  revert i. induction pages as [|pageText pages IH]; intros i; simpl.
  - split; [constructor | intros x []].
  - destruct (IH (S i)) as [Hnd Hfrom]. clear IH.
    rewrite map_app, relabel_page_ids. split.
    + apply NoDup_app; [|exact Hnd|].
      * apply NoDup_map_injective; [|apply seq_NoDup].
        intros a b E. now apply page_id_inj in E.
      * intros x Hx Hx'. apply in_map_iff in Hx as (k & <- & _).
        apply Hfrom in Hx' as (p & k' & Hp & E).
        apply page_id_inj in E. lia.
    + intros x Hx. apply in_app_or in Hx as [Hx | Hx].
      * apply in_map_iff in Hx as (k & <- & _). exists (S i), k. split; [lia|].
        reflexivity.
      * apply Hfrom in Hx as (p & k & Hp & E). exists p, k. split; [lia|].
        exact E.
Qed.

(** C9: within one call of [chunkText], and within one call of
    [chunkByPages], no two chunks have the same id. *)
Theorem chunk_ids_distinct (text : jsstring) (pages : list jsstring) :
  NoDup (map id (chunkText text fname options))
  /\ NoDup (map id (chunkByPages pages fname options)).
Proof.
  split.
  - rewrite chunkText_ids. apply NoDup_map_injective; [|apply seq_NoDup].
    intros a b. apply chunk_id_inj.
  - unfold chunkByPages. rewrite pages_loop_spec. simpl app.
    apply (paged_ids_NoDup pages 0).
Qed.

Lemma chunkByPages_concat (pages : list jsstring) :
  chunkByPages pages fname options = chunkByPages_spec pages fname options.
Proof. unfold chunkByPages, chunkByPages_spec. now rewrite pages_loop_spec. Qed.

End Ids.

(** ** Page-wise chunking and the worked examples *)

Section Examples.

(** C6: [chunkByPages] is the concatenation, in page order, of the chunks
    of each page, the chunk at position [i] (from 0) of page [p] (from 1)
    relabelled with the id [`${filename}-page${p}-chunk-${i}`] and the page
    [p], its content and other metadata kept; the two pages of the example
    give one chunk each, of page 1 and 2, with ids containing [page1] and
    [page2]. *)
Theorem chunkByPages_pagewise :
  (forall pages fname options,
      chunkByPages pages fname options = chunkByPages_spec pages fname options)
  /\ exists c1 c2,
       chunkByPages two_pages (str "doc.pdf") no_options = [c1; c2]
       /\ page (metadata c1) = Some 1 /\ page (metadata c2) = Some 2
       /\ id c1 = str "doc.pdf-page1-chunk-0"
       /\ id c2 = str "doc.pdf-page2-chunk-0"
       /\ has_substring (str "page1") (id c1)
       /\ has_substring (str "page2") (id c2).
Proof.
  split.
  - intros pages fname options. apply chunkByPages_concat.
  - do 2 eexists. split; [vm_compute; reflexivity|].
    cbn [page id metadata]. repeat split.
    + exists (str "doc.pdf-"), (str "-chunk-0"). reflexivity.
    + exists (str "doc.pdf-"), (str "-chunk-0"). reflexivity.
Qed.

Lemma sample_chunks_first : In sample_first_chunk sample_chunks.
Proof. vm_compute. left. reflexivity. Qed.

Lemma chunkText_totalChunks_witness :
  In sample_first_chunk sample_chunks
  /\ totalChunks (metadata sample_first_chunk)
     = Z.of_nat (length sample_chunks).
Proof.
  split; [exact sample_chunks_first|].
  apply (chunkText_totalChunks (str "test.txt") sample_text options_100_20
           sample_first_chunk).
  exact sample_chunks_first.
Defined.

Lemma chunkText_size_bound_witness :
  In sample_first_chunk sample_chunks
  /\ js_length (content sample_first_chunk)
     <= 100 + max_sentence_length (sentences_of sample_text).
Proof.
  split; [exact sample_chunks_first|].
  apply (chunkText_size_bound (str "test.txt") sample_text sample_first_chunk).
  exact sample_chunks_first.
Defined.

Lemma chunkText_empty_witness :
  Forall (fun piece => trim piece = []) (split_terminators (str "?! ..."))
  /\ chunkText (str "?! ...") (str "empty.txt") no_options = [].
Proof.
  assert (H : Forall (fun piece => trim piece = [])
                     (split_terminators (str "?! ..."))).
  { repeat constructor. }
  split; [exact H|].
  apply (proj1 (chunkText_empty (str "empty.txt") no_options) (str "?! ...")).
  right. right. exact H.
Defined.

Lemma chunkText_single_chunk_witness :
  (exists c, In c (str "no terminal punctuation") /\ isWhiteSpace c = false)
  /\ (forall c, In c (str "no terminal punctuation") -> isTerminator c = false)
  /\ exists c, chunkText (str "no terminal punctuation") (str "single.txt") no_options = [c].
Proof.
  assert (H1 : exists c, In c (str "no terminal punctuation")
                         /\ isWhiteSpace c = false).
  { exists 110%N. split; [left|]; reflexivity. }
  assert (H2 : forall c, In c (str "no terminal punctuation")
                         -> isTerminator c = false).
  { apply Forall_forall. repeat constructor. }
  split; [exact H1 | split; [exact H2|]].
  exact (proj1 (proj2 (chunkText_single_chunk (str "single.txt"))) _ H1 H2).
Defined.

Lemma mergeSmallChunks_idempotent_witness :
  mergeSmallChunks (mergeSmallChunks mixed_chunks 20) 20
  = mergeSmallChunks mixed_chunks 20
  /\ js_length (str "Short") < 20
  /\ str "b.txt" <> str "a.txt".
Proof.
  destruct (mergeSmallChunks_idempotent 20 mixed_chunks) as [Hidem Hadj].
  split; [exact Hidem|]. split; [vm_compute; reflexivity|].
  apply (Hadj 0%nat
           (mkChunk (str "a-0") (str "Short") (mkMetadata (str "a.txt") None 0 1))
           (mkChunk (str "b-0") (str "Also short tail")
                    (mkMetadata (str "b.txt") None 0 1))).
  - vm_compute. reflexivity.
  - vm_compute. reflexivity.
  - vm_compute. reflexivity.
Defined.

(** The successor meant in C5 is the next chunk: a later chunk of the same
    filename, beyond a chunk of another file, is left alone. *)
Remark mergeSmallChunks_same_file_later :
  let cs := [ mkChunk (str "a-0") (str "x") (mkMetadata (str "a.txt") None 0 2);
              mkChunk (str "b-0") (str "y") (mkMetadata (str "b.txt") None 0 1);
              mkChunk (str "a-1") (str "z") (mkMetadata (str "a.txt") None 1 2) ] in
  mergeSmallChunks cs 20 = cs.
Proof. reflexivity. Qed.

End Examples.

(** * Further properties of the chunker *)

(** ** Trimming *)

Section Trimming.

Lemma trimStart_blank_prefix (pre s : jsstring) :
  blank pre -> trimStart (pre ++ s) = trimStart s.
Proof.
  unfold blank. induction pre as [|c pre IH]; simpl; intros H; [reflexivity|].
  apply andb_true_iff in H as [Hc H]. rewrite Hc. now apply IH.
Qed.

Lemma trimStart_visible_head (c : N) (s : jsstring) :
  isWhiteSpace c = false -> trimStart (c :: s) = c :: s.
Proof. intros H. simpl. now rewrite H. Qed.

Lemma trimStart_decompose (s : jsstring) :
  exists pre, s = pre ++ trimStart s /\ blank pre
              /\ match trimStart s with
                 | [] => True
                 | c :: _ => isWhiteSpace c = false
                 end.
Proof.
  induction s as [|c s (pre & E & Hpre & Hhd)].
  - exists []. repeat split.
  - simpl. destruct (isWhiteSpace c) eqn:Hc.
    + exists (c :: pre). simpl. rewrite <- E. repeat split; [|exact Hhd].
      unfold blank in *. simpl. now rewrite Hc.
    + exists []. repeat split. exact Hc.
Qed.

Lemma trimEnd_blank_suffix (s post : jsstring) :
  blank post -> trimEnd (s ++ post) = trimEnd s.
Proof.
  intros H. unfold trimEnd. rewrite rev_app_distr.
  rewrite trimStart_blank_prefix; [reflexivity|].
  unfold blank in *. now rewrite forallb_rev.
Qed.

(** Trimming removes exactly the blank margins around a tight body. *)
Lemma trim_exact (pre body post : jsstring) :
  blank pre -> blank post -> tight body -> trim (pre ++ body ++ post) = body.
Proof.
  intros Hpre Hpost [Hhd Hlast]. unfold trim.
  rewrite trimStart_blank_prefix by exact Hpre.
  destruct body as [|c body].
  - simpl. apply trimStart_nil_iff in Hpost. rewrite Hpost. reflexivity.
  - change ((c :: body) ++ post) with (c :: (body ++ post)).
    rewrite trimStart_visible_head by exact Hhd.
    change (c :: (body ++ post)) with ((c :: body) ++ post).
    rewrite trimEnd_blank_suffix by exact Hpost.
    unfold trimEnd. destruct (rev (c :: body)) as [|d r] eqn:E.
    + apply (f_equal (@rev N)) in E. rewrite rev_involutive in E.
      discriminate E.
    + rewrite trimStart_visible_head by exact Hlast.
      rewrite <- E. apply rev_involutive.
Qed.

Lemma trim_decompose (s : jsstring) :
  exists pre post, s = pre ++ trim s ++ post
                   /\ blank pre /\ blank post /\ tight (trim s).
Proof.
  destruct (trimStart_decompose s) as (pre & E & Hpre & Hhd).
  destruct (trimStart_decompose (rev (trimStart s))) as (q & F & Hq & Hlast).
  assert (G : trimStart s = trim s ++ rev q).
  { unfold trim, trimEnd. rewrite <- rev_app_distr, <- F.
    now rewrite rev_involutive. }
  exists pre, (rev q). split; [now rewrite <- G|].
  split; [exact Hpre|]. split; [unfold blank in *; now rewrite forallb_rev|].
  split.
  - rewrite G in Hhd. destruct (trim s); [exact I | exact Hhd].
  - unfold trim, trimEnd. rewrite rev_involutive. exact Hlast.
Qed.

Lemma trim_idempotent (s : jsstring) : trim (trim s) = trim s.
Proof.
  destruct (trim_decompose s) as (_ & _ & _ & _ & _ & Ht).
  rewrite <- (app_nil_r (trim s)) at 1.
  apply (trim_exact [] (trim s) []); [reflexivity | reflexivity | exact Ht].
Qed.

Lemma trim_tight (s : jsstring) : tight s -> trim s = s.
Proof.
  intros H. rewrite <- (app_nil_r s) at 1.
  apply (trim_exact [] s []); [reflexivity | reflexivity | exact H].
Qed.

Lemma trim_substring (s : jsstring) : has_substring (trim s) s.
Proof.
  destruct (trim_decompose s) as (pre & post & E & _).
  exists pre, post. exact E.
Qed.

Lemma sentence_text_tight (s : jsstring) : tight (sentence_text s).
Proof.
  unfold sentence_text. destruct (trim_decompose s) as (_ & _ & _ & _ & _ & Ht).
  destruct Ht as [Hhd _]. split.
  - destruct (trim s); [reflexivity | exact Hhd].
  - rewrite rev_app_distr. reflexivity.
Qed.

Lemma whitespace_not_terminator (c : N) :
  isWhiteSpace c = true -> isTerminator c = false.
Proof.
  intros H. unfold isTerminator.
  destruct (N.eqb_spec c 46) as [->|_]; [discriminate H|].
  destruct (N.eqb_spec c 33) as [->|_]; [discriminate H|].
  destruct (N.eqb_spec c 63) as [->|_]; [discriminate H|].
  reflexivity.
Qed.

End Trimming.

(** ** Substrings *)

Section Substrings.

Lemma has_substring_refl (s : jsstring) : has_substring s s.
Proof. exists [], []. now rewrite app_nil_r. Qed.

Lemma has_substring_trans (a b c : jsstring) :
  has_substring a b -> has_substring b c -> has_substring a c.
Proof.
  intros (p1 & q1 & ->) (p2 & q2 & ->).
  exists (p2 ++ p1), (q1 ++ q2). now rewrite <- !app_assoc.
Qed.

Lemma has_substring_skipn (k : nat) (s : jsstring) : has_substring (skipn k s) s.
Proof.
  exists (firstn k s), []. now rewrite app_nil_r, firstn_skipn.
Qed.

Lemma has_substring_slice (s : jsstring) (k : Z) : has_substring (slice s k) s.
Proof. unfold slice. apply has_substring_skipn. Qed.

Lemma has_substring_app_l (a b c : jsstring) :
  has_substring a b -> has_substring a (b ++ c).
Proof.
  intros (p & q & ->). exists p, (q ++ c). now rewrite <- !app_assoc.
Qed.

Lemma has_substring_app_r (a b c : jsstring) :
  has_substring a c -> has_substring a (b ++ c).
Proof.
  intros (p & q & ->). exists (b ++ p), q. now rewrite <- !app_assoc.
Qed.

(** A blank prefix of a text ends before any visible character. *)
Lemma blank_prefix_short (pre a x y : jsstring) (c : N) (x' : jsstring) :
  a ++ x = pre ++ y -> blank pre -> x = c :: x' -> isWhiteSpace c = false ->
  exists a', a = pre ++ a' /\ y = a' ++ x.
Proof.
  intros E Hpre -> Hc. revert a E.
  induction pre as [|w pre IH]; intros a E.
  - exists a. split; [reflexivity | now symmetry].
  - unfold blank in Hpre. simpl in Hpre.
    apply andb_true_iff in Hpre as [Hw Hpre].
    destruct a as [|w' a]; simpl in E.
    + injection E as -> _. congruence.
    + injection E as -> E. destruct (IH Hpre a E) as (a' & -> & ->).
      exists a'. split; reflexivity.
Qed.

(** Trimming a text removes none of its tight, non-empty parts. *)
Lemma has_substring_trim (st cur : jsstring) :
  st <> [] -> tight st -> has_substring st cur -> has_substring st (trim cur).
Proof.
  intros Hne [Hhd Hlast] (a & b & E).
  destruct (trim_decompose cur) as (pre & post & F & Hpre & Hpost & _).
  destruct st as [|c st']; [congruence|].
  rewrite F in E.
  destruct (blank_prefix_short pre a ((c :: st') ++ b) (trim cur ++ post)
              c (st' ++ b) (eq_sym E) Hpre eq_refl Hhd) as (a' & -> & G).
  apply (f_equal (@rev N)) in G.
  rewrite !rev_app_distr in G. rewrite <- app_assoc in G.
  destruct (rev (c :: st')) as [|d r] eqn:R.
  { apply (f_equal (@rev N)) in R. rewrite rev_involutive in R.
    discriminate R. }
  assert (Hrp : blank (rev post)).
  { unfold blank in *. now rewrite forallb_rev. }
  destruct (blank_prefix_short (rev post) (rev b) ((d :: r) ++ rev a')
              (rev (trim cur)) d (r ++ rev a') (eq_sym G) Hrp eq_refl Hlast)
    as (b' & _ & H).
  apply (f_equal (@rev N)) in H. rewrite rev_involutive in H.
  rewrite !rev_app_distr, rev_involutive in H. rewrite <- R in H.
  rewrite rev_involutive in H.
  exists a', (rev b'). rewrite H. now rewrite <- app_assoc.
Qed.

End Substrings.

(** ** More on getOverlapText *)

Section OverlapMore.

Lemma last_chars_snoc (k : nat) (b : jsstring) (c : N) :
  (1 <= k <= length b + 1)%nat ->
  exists e, last_chars k (b ++ [c]) = e ++ [c] /\ length e = (k - 1)%nat.
Proof.
  intros H. unfold last_chars. rewrite length_app. simpl length.
  exists (skipn (length b + 1 - k) b). split.
  - rewrite skipn_app.
    replace (length b + 1 - k - length b)%nat with 0%nat by lia.
    reflexivity.
  - rewrite length_skipn. lia.
Qed.

Lemma is_last_index_snoc (e : jsstring) (c : N) :
  is_last_index c (e ++ [c]) (length e).
Proof.
  split.
  - rewrite nth_error_app2 by lia. now rewrite Nat.sub_diag.
  - intros q Hq. rewrite (proj2 (nth_error_None _ _)); [discriminate|].
    rewrite length_app. simpl. lia.
Qed.

Lemma getOverlapText_dot_suffix (b : jsstring) (n : Z) :
  2 <= n ->
  getOverlapText (b ++ [dot]) n
  = if js_length (b ++ [dot]) <=? n then b ++ [dot] else [].
Proof.
  intros Hn. unfold getOverlapText.
  destruct (Z.leb_spec (js_length (b ++ [dot])) n) as [Hle | Hgt];
    [reflexivity|].
  rewrite slice_suffix by lia.
  destruct (last_chars_snoc (Z.to_nat n) b dot) as (e & -> & He).
  { unfold js_length in Hgt. rewrite length_app in Hgt. simpl in Hgt. lia. }
  rewrite (lastIndexOf_found _ _ _ (is_last_index_snoc e dot)).
  destruct (Z.gtb_spec (Z.of_nat (length e)) 0); [|lia].
  rewrite slice_from_index.
  - rewrite skipn_all2; [reflexivity|]. rewrite length_app. simpl. lia.
  - unfold js_length. rewrite length_app. simpl. lia.
Qed.

(** X1: on a text that ends with ['.'], as every accumulator of [chunkText]
    does, an overlap size of at least 2 carries over either the whole text
    (when the text is no longer than the overlap size) or nothing at all:
    the last ['.'] of the suffix is its last character, and nothing
    follows it. *)
Theorem getOverlapText_all_or_nothing (b : jsstring) (n : Z) :
  2 <= n ->
  getOverlapText (b ++ [dot]) n
  = if js_length (b ++ [dot]) <=? n then b ++ [dot] else [].
Proof. exact (getOverlapText_dot_suffix b n). Qed.

Lemma getOverlapText_all_or_nothing_witness :
  2 <= 20
  /\ getOverlapText (str "One. Two. Three. Four. Five" ++ [dot]) 20 = [].
Proof.
  split; [lia|].
  apply (getOverlapText_all_or_nothing (str "One. Two. Three. Four. Five") 20).
  lia.
Defined.

(** X2: whatever the overlap size, the overlap seed is a contiguous part of
    the text it is taken from. *)
Theorem getOverlapText_substring (text : jsstring) (n : Z) :
  has_substring (getOverlapText text n) text.
Proof.
  unfold getOverlapText.
  destruct (js_length text <=? n); [apply has_substring_refl|].
  destruct (_ >? 0).
  - eapply has_substring_trans; [apply trim_substring|].
    eapply has_substring_trans; apply has_substring_slice.
  - apply has_substring_slice.
Qed.

End OverlapMore.

(** ** The sentence splitter *)

Section Splitter.

Lemma split_from_pieces (s : jsstring) :
  forall in_run piece,
    (in_run = true -> piece = []) ->
    (forall c, In c piece -> isTerminator c = false) ->
    Forall (fun p => forall c, In c p -> isTerminator c = false)
           (split_from in_run piece s)
    /\ concat (split_from in_run piece s)
       = piece ++ filter (fun c => negb (isTerminator c)) s.
Proof.
  induction s as [|c s IH]; intros in_run piece Hrun Hp; simpl.
  - split; [repeat constructor; exact Hp | reflexivity].
  - destruct (isTerminator c) eqn:Hc; simpl.
    + destruct (IH true []) as [Hall Hcat]; [reflexivity | intros ? [] |].
      destruct in_run.
      * rewrite (Hrun eq_refl). split; [exact Hall | exact Hcat].
      * split; [constructor; assumption|]. simpl. now rewrite Hcat.
    + destruct (IH false (piece ++ [c])) as [Hall Hcat].
      * discriminate.
      * intros x Hx. apply in_app_or in Hx as [Hx | [<- | []]];
          [now apply Hp | exact Hc].
      * split; [exact Hall|]. rewrite Hcat. now rewrite <- app_assoc.
Qed.

(** X3: the pieces the splitter yields contain no ['.'], ['!'] or ['?'],
    and put end to end they are the text without these characters: the
    splitter drops the terminators and nothing else. *)
Theorem split_terminators_pieces (text : jsstring) :
  Forall (fun p => forall c, In c p -> isTerminator c = false)
         (split_terminators text)
  /\ concat (split_terminators text)
     = filter (fun c => negb (isTerminator c)) text.
Proof.
  apply (split_from_pieces text false []); [discriminate | intros ? []].
Qed.

Lemma blank_no_sentence (text : jsstring) :
  blank text -> sentences_of text = [].
Proof.
  intros H. unfold sentences_of, split_terminators.
  rewrite split_from_plain.
  - destruct text as [|c t]; [reflexivity|].
    change ([] ++ c :: t) with (c :: t). cbn [filter].
    rewrite trim_length_pos. unfold blank in H. rewrite H. reflexivity.
  - unfold blank in H. rewrite forallb_forall in *. intros c Hc.
    now rewrite whitespace_not_terminator by auto.
Qed.

Lemma sentences_of_visible (text : jsstring) :
  Forall (fun s => trim s <> []) (sentences_of text).
Proof.
  unfold sentences_of. apply Forall_forall. intros s Hs.
  apply filter_In in Hs as [_ Hs]. intros E. rewrite E in Hs. discriminate Hs.
Qed.

End Splitter.

(** ** The sentence loop, sentence by sentence *)

Section SentenceLoop.

Variable fname : jsstring.
Variable o : ChunkingOptions.

(** An invariant that relates the state to the sentences read so far. *)
Lemma sentence_loop_history (R : list jsstring -> LoopState -> Prop)
    (Q : jsstring -> Prop) :
  R [] {| st_chunks := []; st_currentChunk := []; st_chunkIndex := 0 |} ->
  (forall done st s, Q s -> R done st ->
                     R (done ++ [s]) (sentence_step o fname st s)) ->
  forall sentences, Forall Q sentences ->
                    R sentences (sentence_loop o fname sentences).
Proof.
  intros Hinit Hstep sentences.
  induction sentences as [|s l IH] using rev_ind; intros HQ.
  - exact Hinit.
  - apply Forall_app in HQ as [Hl Hs]. inversion Hs; subst.
    unfold sentence_loop in *. rewrite fold_left_app. simpl.
    apply Hstep; [assumption|]. now apply IH.
Qed.

Lemma truthy_app_cons (x y : jsstring) (c : N) : truthy (x ++ c :: y) = true.
Proof. destruct x; reflexivity. Qed.

Lemma truthy_length (s : jsstring) : truthy s = true <-> 1 <= js_length s.
Proof.
  unfold js_length. destruct s; simpl; split; intros H;
    try reflexivity; try discriminate; lia.
Qed.

Lemma sentence_step_current (st : LoopState) (s : jsstring) :
  exists b, st_currentChunk (sentence_step o fname st s)
            = b ++ sentence_text s.
Proof.
  unfold sentence_step. cbv zeta. destruct (_ && _);
    cbn [st_currentChunk]; unfold sentence_text.
  - eexists. rewrite app_assoc. reflexivity.
  - eexists. rewrite app_assoc. reflexivity.
Qed.

Lemma sentence_step_ends_with_dot (st : LoopState) (s : jsstring) :
  ends_with_dot (st_currentChunk (sentence_step o fname st s)).
Proof.
  destruct (sentence_step_current st s) as [b ->].
  exists (b ++ trim s). unfold sentence_text. now rewrite app_assoc.
Qed.

Lemma sentence_loop_ends_with_dot (sentences : list jsstring) :
  sentences <> [] ->
  ends_with_dot (st_currentChunk (sentence_loop o fname sentences)).
Proof.
  apply (sentence_loop_history
           (fun done st => done <> [] -> ends_with_dot (st_currentChunk st))
           (fun _ => True)).
  - congruence.
  - intros done st s _ _ _. apply sentence_step_ends_with_dot.
  - apply Forall_forall. intros; exact I.
Qed.

Lemma ends_with_dot_visible (cur : jsstring) :
  ends_with_dot cur -> (js_length (trim cur) >? 0) = true.
Proof. intros [b ->]. now apply trim_snoc_visible. Qed.

Lemma flush_last_pushes (st : LoopState) :
  ends_with_dot (st_currentChunk st) ->
  flush_last fname st
  = st_chunks st ++ [new_chunk fname (st_currentChunk st) (st_chunkIndex st)].
Proof.
  intros H. unfold flush_last. now rewrite ends_with_dot_visible.
Qed.

(** The chunks pushed so far carry the labels 0, 1, 2, ... *)
Lemma sentence_loop_labels (sentences : list jsstring) :
  let st := sentence_loop o fname sentences in
  map chunk_label (st_chunks st)
  = map (fresh_label fname) (seq 0 (st_chunkIndex st)).
Proof.
  cbv zeta.
  apply (sentence_loop_history
           (fun _ st => map chunk_label (st_chunks st)
                        = map (fresh_label fname) (seq 0 (st_chunkIndex st)))
           (fun _ => True)).
  - reflexivity.
  - intros done st s _ H. unfold sentence_step. cbv zeta.
    destruct (_ && _); cbn [st_chunks st_chunkIndex]; [|exact H].
    rewrite map_app, seq_S, map_app, H. reflexivity.
  - apply Forall_forall. intros; exact I.
Qed.

Lemma raw_chunks_labels (text : jsstring) :
  map chunk_label (raw_chunks o fname text)
  = map (fresh_label fname) (seq 0 (length (raw_chunks o fname text))).
Proof.
  assert (G : exists n, map chunk_label (raw_chunks o fname text)
                        = map (fresh_label fname) (seq 0 n)).
  { unfold raw_chunks, flush_last.
    pose proof (sentence_loop_labels (sentences_of text)) as H. cbv zeta in H.
    destruct (_ >? 0).
    - eexists (S _). rewrite map_app, seq_S, map_app, H. reflexivity.
    - eexists. exact H. }
  destruct G as [n G].
  assert (L : length (raw_chunks o fname text) = n).
  { apply (f_equal (@length _)) in G.
    now rewrite !length_map, length_seq in G. }
  rewrite L. exact G.
Qed.

Lemma new_chunk_well_trimmed (cur : jsstring) (k : nat) :
  (1 <= minChunkSize o -> ends_with_dot cur) ->
  well_trimmed o (new_chunk fname cur k).
Proof.
  intros H. split; cbn [content new_chunk]; [apply trim_idempotent|].
  intros Hmin E. pose proof (ends_with_dot_visible cur (H Hmin)) as V.
  rewrite E in V. discriminate V.
Qed.

Lemma raw_chunks_well_trimmed (text : jsstring) :
  Forall (well_trimmed o) (raw_chunks o fname text).
Proof.
  unfold raw_chunks.
  assert (H : let st := sentence_loop o fname (sentences_of text) in
              Forall (well_trimmed o) (st_chunks st)
              /\ (st_currentChunk st = []
                  \/ ends_with_dot (st_currentChunk st))).
  { cbv zeta.
    apply (sentence_loop_history
             (fun _ st => Forall (well_trimmed o) (st_chunks st)
                          /\ (st_currentChunk st = []
                              \/ ends_with_dot (st_currentChunk st)))
             (fun _ => True)).
    - split; [constructor | now left].
    - intros done st s _ [Hall Hcur].
      split; [|right; apply sentence_step_ends_with_dot].
      unfold sentence_step. cbv zeta.
      destruct (Z.gtb_spec (js_length (st_currentChunk st)
                            + js_length (trim s ++ [dot])) (chunkSize o));
        [destruct (Z.geb_spec (js_length (st_currentChunk st))
                     (minChunkSize o)) |]; cbn [andb st_chunks];
        try exact Hall.
      apply Forall_app. split; [exact Hall|]. constructor; [|constructor].
      apply new_chunk_well_trimmed. intros Hmin.
      destruct Hcur as [E | E]; [|exact E].
      rewrite E in *. change (js_length []) with 0 in *. lia.
    - apply Forall_forall. intros; exact I. }
  cbv zeta in H. destruct H as [Hall Hcur]. unfold flush_last.
  destruct (js_length (trim (st_currentChunk _)) >? 0) eqn:V; [|exact Hall].
  apply Forall_app. split; [exact Hall|]. constructor; [|constructor].
  apply new_chunk_well_trimmed. intros _.
  destruct Hcur as [E | E]; [|exact E]. rewrite E in V. discriminate V.
Qed.

(** With a positive [minChunkSize], the chunks pushed and the accumulator,
    when it is not empty, are no more than the sentences read. *)
Lemma sentence_loop_count (sentences : list jsstring) :
  1 <= minChunkSize o ->
  let st := sentence_loop o fname sentences in
  (length (st_chunks st) + (if truthy (st_currentChunk st) then 1 else 0)
   <= length sentences)%nat.
Proof.
  intros Hmin. cbv zeta.
  apply (sentence_loop_history
           (fun done st =>
              (length (st_chunks st)
               + (if truthy (st_currentChunk st) then 1 else 0)
               <= length done)%nat)
           (fun _ => True)).
  - simpl. lia.
  - intros done st s _ H. rewrite length_app. simpl length.
    destruct (sentence_step_ends_with_dot st s) as [b Hb].
    rewrite Hb, truthy_app_cons.
    unfold sentence_step. cbv zeta.
    destruct (Z.gtb_spec (js_length (st_currentChunk st)
                          + js_length (trim s ++ [dot])) (chunkSize o));
      [destruct (Z.geb_spec (js_length (st_currentChunk st))
                   (minChunkSize o)) as [Hge | Hlt] |];
      cbn [andb st_chunks].
    + assert (T : truthy (st_currentChunk st) = true)
        by (apply truthy_length; lia).
      rewrite T in H. rewrite length_app. simpl length. lia.
    + destruct (truthy (st_currentChunk st)); lia.
    + destruct (truthy (st_currentChunk st)); lia.
  - apply Forall_forall. intros; exact I.
Qed.

End SentenceLoop.

(** ** chunkText: what a result looks like *)

Section ChunkTextShape.

Variable fname : jsstring.
Variable options : PartialChunkingOptions.

Lemma chunkText_raw (text : jsstring) :
  sentences_of text <> [] ->
  chunkText text fname options
  = map (set_totalChunks
           (Z.of_nat (length (raw_chunks (spread_options options) fname text))))
        (raw_chunks (spread_options options) fname text).
Proof.
  intros Hs. unfold chunkText, raw_chunks.
  destruct (negb (truthy text) || (js_length (trim text) =? 0)) eqn:G.
  - exfalso. apply Hs. apply blank_no_sentence.
    apply orb_true_iff in G as [G | G].
    + destruct text; [reflexivity | discriminate G].
    + apply trim_nil_iff. apply Z.eqb_eq in G. unfold js_length in G.
      destruct (trim text); [reflexivity | simpl in G; lia].
  - destruct (sentences_of text); [congruence | reflexivity].
Qed.

Lemma raw_chunks_nonempty (text : jsstring) :
  sentences_of text <> [] ->
  raw_chunks (spread_options options) fname text <> [].
Proof.
  intros Hs. unfold raw_chunks.
  rewrite flush_last_pushes by now apply sentence_loop_ends_with_dot.
  intros E. apply app_eq_nil in E as [_ E]. discriminate E.
Qed.

(** X4: [chunkText] returns no chunk exactly when the text has no sentence:
    as soon as the splitter yields one sentence, there is at least one
    chunk, whatever the options. *)
Theorem chunkText_nil_iff (text : jsstring) :
  chunkText text fname options = [] <-> sentences_of text = [].
Proof.
  split.
  - intros E. destruct (sentences_of text) as [|s l] eqn:Hs; [reflexivity|].
    exfalso. assert (Hne : sentences_of text <> []) by (rewrite Hs; discriminate).
    rewrite (chunkText_raw text Hne) in E. apply map_eq_nil in E.
    exact (raw_chunks_nonempty text Hne E).
  - apply chunkText_no_sentence.
Qed.

Lemma nth_error_seq_from (start len i : nat) :
  (i < len)%nat -> nth_error (seq start len) i = Some (start + i)%nat.
Proof.
  revert start i. induction len as [|len IH]; intros start [|i] H;
    try lia; simpl.
  - now rewrite Nat.add_0_r.
  - rewrite IH by lia. f_equal. lia.
Qed.

Lemma chunkText_nth (text : jsstring) (i : nat) (c : DocumentChunk) :
  nth_error (chunkText text fname options) i = Some c ->
  exists x, nth_error (raw_chunks (spread_options options) fname text) i = Some x
            /\ id c = id x /\ content c = content x
            /\ filename (metadata c) = filename (metadata x)
            /\ page (metadata c) = page (metadata x)
            /\ chunkIndex (metadata c) = chunkIndex (metadata x).
Proof.
  destruct (chunkText_cases fname text options) as [E | E]; rewrite E.
  - destruct i; discriminate.
  - rewrite nth_error_map.
    destruct (nth_error (raw_chunks _ fname text) i) as [x|];
      [|discriminate].
    intros H. injection H as <-. exists x. repeat split.
Qed.

(** X5: the chunk at position [i] of a result has the id
    [`${filename}-chunk-${i}`], the filename it was given, no page, and
    [chunkIndex = i]. *)
Theorem chunkText_labels (text : jsstring) (i : nat) (c : DocumentChunk) :
  nth_error (chunkText text fname options) i = Some c ->
  id c = chunk_id fname i
  /\ filename (metadata c) = fname
  /\ page (metadata c) = None
  /\ chunkIndex (metadata c) = Z.of_nat i.
Proof.
  intros H. apply chunkText_nth in H as (x & Hx & -> & _ & -> & -> & ->).
  pose proof (raw_chunks_labels fname (spread_options options) text) as L.
  apply (f_equal (fun l => nth_error l i)) in L.
  rewrite !nth_error_map, Hx in L.
  assert (Hi : (i < length (raw_chunks (spread_options options) fname text))%nat)
    by (apply nth_error_Some; congruence).
  rewrite (nth_error_seq_from 0 _ i Hi) in L.
  simpl in L. injection L as -> ->. repeat split.
Qed.

(** X6: every chunk content is trimmed (trimming it again changes
    nothing), and it is not empty when [minChunkSize] is at least 1. *)
Theorem chunkText_content_trimmed (text : jsstring) (c : DocumentChunk) :
  In c (chunkText text fname options) ->
  trim (content c) = content c
  /\ (1 <= minChunkSize (spread_options options) -> content c <> []).
Proof.
  intros H. apply In_nth_error in H as [i H].
  apply chunkText_nth in H as (x & Hx & _ & -> & _).
  apply nth_error_In in Hx.
  pose proof (raw_chunks_well_trimmed fname (spread_options options) text) as W.
  rewrite Forall_forall in W. exact (W x Hx).
Qed.

(** X7: with [minChunkSize] at least 1, there are no more chunks than
    sentences. *)
Theorem chunkText_count (text : jsstring) :
  1 <= minChunkSize (spread_options options) ->
  (length (chunkText text fname options) <= length (sentences_of text))%nat.
Proof.
  intros Hmin.
  destruct (chunkText_cases fname text options) as [E | E]; rewrite E.
  - simpl. lia.
  - rewrite length_map. unfold raw_chunks, flush_last.
    pose proof (sentence_loop_count fname (spread_options options)
                  (sentences_of text) Hmin) as C. cbv zeta in C.
    destruct (js_length (trim (st_currentChunk _)) >? 0) eqn:V.
    + rewrite length_app. simpl length.
      destruct (truthy (st_currentChunk
                  (sentence_loop (spread_options options) fname
                     (sentences_of text)))) eqn:T; [lia|].
      destruct (st_currentChunk _); [discriminate V | discriminate T].
    + lia.
Qed.

End ChunkTextShape.

(** ** chunkText: where the sentences go *)

Section Coverage.

Variable fname : jsstring.

Lemma sentence_text_nonempty (s : jsstring) : sentence_text s <> [].
Proof. unfold sentence_text. destruct (trim s); discriminate. Qed.

Lemma sentence_step_kept (o : ChunkingOptions) (done : list jsstring)
    (st : LoopState) (s : jsstring) :
  Forall (kept st) done ->
  Forall (kept (sentence_step o fname st s)) (done ++ [s]).
Proof.
  intros H. apply Forall_app. split.
  - eapply Forall_impl; [|exact H]. intros s' [Hcur | Hch];
      unfold kept, sentence_step; cbv zeta; destruct (_ && _);
      cbn [st_currentChunk st_chunks].
    + right. apply Exists_app. right. constructor. cbn [content new_chunk].
      apply has_substring_trim;
        [apply sentence_text_nonempty | apply sentence_text_tight | exact Hcur].
    + left. now apply has_substring_app_l.
    + right. apply Exists_app. now left.
    + now right.
  - constructor; [|constructor]. left.
    destruct (sentence_step_current fname o st s) as [b ->].
    apply has_substring_app_r, has_substring_refl.
Qed.

(** X8: no sentence is lost: each sentence the splitter yields, trimmed
    and with its ['.'], is part of the content of some chunk of the
    result, whatever the options. *)
Theorem chunkText_keeps_sentences (text : jsstring)
    (options : PartialChunkingOptions) (s : jsstring) :
  In s (sentences_of text) ->
  exists c, In c (chunkText text fname options)
            /\ has_substring (trim s ++ [dot]) (content c).
Proof.
  intros Hs.
  assert (Hne : sentences_of text <> []) by (intros E; now rewrite E in Hs).
  set (o := spread_options options).
  assert (K : Forall (kept (sentence_loop o fname (sentences_of text)))
                     (sentences_of text)).
  { apply (sentence_loop_history fname o (fun done st => Forall (kept st) done)
             (fun _ => True)).
    - constructor.
    - intros done st s' _. apply sentence_step_kept.
    - apply Forall_forall. intros; exact I. }
  rewrite Forall_forall in K. specialize (K s Hs).
  assert (R : Exists (fun c => has_substring (sentence_text s) (content c))
                     (raw_chunks o fname text)).
  { unfold raw_chunks.
    rewrite flush_last_pushes by now apply sentence_loop_ends_with_dot.
    apply Exists_app. destruct K as [Hcur | Hch]; [right | now left].
    constructor. cbn [content new_chunk].
    apply has_substring_trim;
      [apply sentence_text_nonempty | apply sentence_text_tight | exact Hcur]. }
  apply Exists_exists in R as (x & Hx & Hsub).
  rewrite (chunkText_raw fname options text Hne).
  exists (set_totalChunks
            (Z.of_nat (length (raw_chunks o fname text))) x).
  split; [now apply in_map | exact Hsub].
Qed.

Lemma ends_with_dot_nonempty (x : jsstring) : ends_with_dot x -> x <> [].
Proof. intros [b ->]. destruct b; discriminate. Qed.

Lemma sentence_like_join (a b : jsstring) :
  sentence_like a -> sentence_like b -> sentence_like (a ++ str " " ++ b).
Proof.
  intros [[Ha _] Da] [[_ Hb] Db]. split; [split|].
  - pose proof (ends_with_dot_nonempty a Da).
    destruct a; [congruence | exact Ha].
  - rewrite !rev_app_distr. pose proof (ends_with_dot_nonempty b Db) as Nb.
    destruct (rev b) as [|d r] eqn:E; [|exact Hb].
    apply (f_equal (@rev N)) in E. rewrite rev_involutive in E. contradiction.
  - destruct Db as [b0 ->]. exists (a ++ str " " ++ b0).
    now rewrite <- !app_assoc.
Qed.

Lemma join_space_sentence_like (g : list jsstring) :
  g <> [] -> Forall sentence_like g -> sentence_like (join_space g).
Proof.
  induction g as [|a g IH]; intros Hne H; [congruence|].
  inversion H as [|? ? Ha Hg]; subst. destruct g as [|b g]; [exact Ha|].
  rewrite join_space_cons. apply sentence_like_join; [exact Ha|].
  apply IH; [discriminate | exact Hg].
Qed.

Lemma sentence_text_like (s : jsstring) : sentence_like (sentence_text s).
Proof.
  split; [apply sentence_text_tight|]. exists (trim s). reflexivity.
Qed.

Lemma group_sentence_like (groups : list (list jsstring))
    (g : list jsstring) (done : list jsstring) :
  concat groups ++ g = map sentence_text done -> Forall sentence_like g.
Proof.
  intros E. apply Forall_forall. intros x Hx.
  assert (Hin : In x (map sentence_text done)).
  { rewrite <- E. apply in_or_app. now right. }
  apply in_map_iff in Hin as (s & <- & _). apply sentence_text_like.
Qed.

Lemma trim_accumulator (g : list jsstring) (cur : jsstring) :
  g <> [] -> Forall sentence_like g ->
  cur = join_space g \/ cur = str " " ++ join_space g ->
  trim cur = join_space g /\ ends_with_dot cur /\ truthy cur = true.
Proof.
  intros Hne Hg Hcur.
  destruct (join_space_sentence_like g Hne Hg) as [Ht Hd].
  pose proof (ends_with_dot_nonempty _ Hd) as Hn.
  destruct Hcur as [-> | ->]; (split; [|split]).
  - now apply trim_tight.
  - exact Hd.
  - destruct (join_space g); [congruence | reflexivity].
  - rewrite <- (app_nil_r (join_space g)) at 1.
    apply (trim_exact (str " ") (join_space g) []);
      [reflexivity | reflexivity | exact Ht].
  - destruct Hd as [b ->]. exists (str " " ++ b). now rewrite <- app_assoc.
  - reflexivity.
Qed.

Lemma sentence_step_grouped_append (groups : list (list jsstring))
    (g done : list jsstring) (st : LoopState) (s : jsstring) :
  concat groups ++ g = map sentence_text done ->
  Forall (fun r => r <> []) groups ->
  map content (st_chunks st) = map join_space groups ->
  (g = [] /\ st_currentChunk st = []
   \/ g <> [] /\ (st_currentChunk st = join_space g
                  \/ st_currentChunk st = str " " ++ join_space g)) ->
  Forall sentence_like g ->
  grouped (done ++ [s])
    {| st_chunks := st_chunks st;
       st_currentChunk :=
         st_currentChunk st
         ++ (if truthy (st_currentChunk st) then str " " else [])
         ++ trim s ++ [dot];
       st_chunkIndex := st_chunkIndex st |}.
Proof.
  intros Hcat Hne Hch Hcur Hg.
  exists groups, (g ++ [sentence_text s]). cbn [st_chunks st_currentChunk].
  split; [rewrite app_assoc, Hcat, map_app; reflexivity|].
  split; [exact Hne|]. split; [exact Hch|]. right.
  split; [destruct g; discriminate|].
  destruct Hcur as [[-> ->] | [Hgne Hc]]; [left; reflexivity|].
  destruct (trim_accumulator g _ Hgne Hg Hc) as (_ & _ & T). rewrite T.
  rewrite join_space_snoc by exact Hgne.
  destruct Hc as [-> | ->]; [left | right]; unfold sentence_text;
    now rewrite <- ?app_assoc.
Qed.

Section NoOverlap.

Variable o : ChunkingOptions.
Hypothesis Hov : 2 <= chunkOverlap o.
Hypothesis Hmin : chunkOverlap o < minChunkSize o.

Lemma sentence_step_grouped (done : list jsstring) (st : LoopState)
    (s : jsstring) :
  grouped done st -> grouped (done ++ [s]) (sentence_step o fname st s).
Proof.
  intros (groups & g & Hcat & Hne & Hch & Hcur).
  pose proof (group_sentence_like groups g done Hcat) as Hg.
  unfold sentence_step. cbv zeta.
  destruct (Z.gtb_spec (js_length (st_currentChunk st)
                        + js_length (trim s ++ [dot])) (chunkSize o));
    [destruct (Z.geb_spec (js_length (st_currentChunk st))
                 (minChunkSize o)) as [Hge | Hlt] |]; cbn [andb].
  - (* flush *)
    destruct Hcur as [[_ E] | [Hgne Hc]].
    { rewrite E in Hge. change (js_length []) with 0 in Hge. lia. }
    destruct (trim_accumulator g _ Hgne Hg Hc) as (Htrim & [b Hb] & _).
    exists (groups ++ [g]), [sentence_text s].
    cbn [st_chunks st_currentChunk]. repeat split.
    + rewrite concat_app, map_app. simpl. rewrite app_nil_r, Hcat.
      reflexivity.
    + apply Forall_app. split; [exact Hne | now constructor].
    + rewrite !map_app, Hch. simpl. now rewrite Htrim.
    + right. split; [discriminate|]. right.
      rewrite Hb, getOverlapText_dot_suffix by exact Hov.
      rewrite Hb in Hge.
      destruct (Z.leb_spec (js_length (b ++ [dot])) (chunkOverlap o));
        [lia | reflexivity].
  - (* below minChunkSize *)
    apply (sentence_step_grouped_append groups g); assumption.
  - (* within chunkSize *)
    apply (sentence_step_grouped_append groups g); assumption.
Qed.

End NoOverlap.

End Coverage.

Section Partition.

Lemma map_content_set_totalChunks (n : Z) (l : list DocumentChunk) :
  map content (map (set_totalChunks n) l) = map content l.
Proof. rewrite map_map. reflexivity. Qed.

(** X9: when [2 <= chunkOverlap < minChunkSize], the chunks partition the
    sentences: the contents of the result are the space-joins of
    consecutive, non-empty groups of the sentences (each trimmed, with its
    ['.']), in order.  No sentence is repeated: an accumulator that is
    flushed is longer than the overlap size, so its overlap seed is
    empty. *)
Theorem chunkText_partitions_sentences (text fname : jsstring)
    (options : PartialChunkingOptions) :
  2 <= chunkOverlap (spread_options options) ->
  chunkOverlap (spread_options options) < minChunkSize (spread_options options) ->
  exists groups,
    concat groups = map sentence_text (sentences_of text)
    /\ Forall (fun g => g <> []) groups
    /\ map content (chunkText text fname options) = map join_space groups.
Proof.
  intros Hov Hmin. set (o := spread_options options) in *.
  destruct (sentences_of text) as [|s0 l0] eqn:Hs.
  - exists []. rewrite (chunkText_no_sentence fname text options Hs).
    repeat split. constructor.
  - assert (Hne : sentences_of text <> []) by (rewrite Hs; discriminate).
    rewrite <- Hs.
    assert (G : grouped (sentences_of text)
                  (sentence_loop o fname (sentences_of text))).
    { apply (sentence_loop_history fname o grouped (fun _ => True)).
      - exists [], []. repeat split; [constructor | now left].
      - intros done st s _. now apply sentence_step_grouped.
      - apply Forall_forall. intros; exact I. }
    destruct G as (groups & g & Hcat & Hgne & Hch & Hcur).
    pose proof (sentence_loop_ends_with_dot fname o _ Hne) as Hdot.
    pose proof (group_sentence_like groups g _ Hcat) as Hg.
    destruct Hcur as [[_ E] | [Hg0 Hc]].
    { rewrite E in Hdot. now apply ends_with_dot_nonempty in Hdot. }
    destruct (trim_accumulator g _ Hg0 Hg Hc) as (Htrim & _ & _).
    exists (groups ++ [g]). split; [|split].
    + rewrite concat_app. simpl. now rewrite app_nil_r.
    + apply Forall_app. split; [exact Hgne | now constructor].
    + rewrite (chunkText_raw fname options text Hne).
      rewrite map_content_set_totalChunks. unfold raw_chunks.
      fold o. rewrite flush_last_pushes by exact Hdot.
      rewrite !map_app, Hch. cbn [map content new_chunk]. now rewrite Htrim.
Qed.

End Partition.

(** ** More on mergeSmallChunks *)

Section MergeMore.

Variable minSize : Z.





Lemma settled_when_large (l : list DocumentChunk) :
  Forall (fun c => minSize <= js_length (content c)) l -> settled minSize l.
Proof.
  induction 1 as [|c l Hc _ IH]; simpl; [exact I|].
  split; [|exact IH]. destruct l as [|next l]; [exact I|].
  unfold mergeable.
  destruct (Z.ltb_spec (js_length (content c)) minSize); [lia | reflexivity].
Qed.

(** X11: when no chunk is shorter than [minSize] (in particular when
    [minSize <= 0]), merging changes nothing. *)
Theorem mergeSmallChunks_nothing_small (cs : list DocumentChunk) :
  Forall (fun c => minSize <= js_length (content c)) cs ->
  mergeSmallChunks cs minSize = cs.
Proof.
  intros H. rewrite mergeSmallChunks_by_recursion.
  destruct cs as [|c rest]; [reflexivity|]. simpl.
  apply merge_loop_fixed. now apply settled_when_large.
Qed.

Lemma merge_loop_length (rest : list DocumentChunk) :
  forall c, (1 <= length (merge_loop minSize c rest) <= S (length rest))%nat.
Proof.
  induction rest as [|next rest IH]; intros c; [simpl; lia|].
  rewrite merge_loop_unfold. destruct (mergeable minSize c next).
  - specialize (IH (absorb c next)). simpl length. lia.
  - specialize (IH next). simpl length. lia.
Qed.

(** X12: merging never adds a chunk and never loses the last one: the
    output is no longer than the input, and it is empty only for an empty
    input. *)
Theorem mergeSmallChunks_length (cs : list DocumentChunk) :
  (length (mergeSmallChunks cs minSize) <= length cs)%nat
  /\ (mergeSmallChunks cs minSize = [] <-> cs = []).
Proof.
  rewrite mergeSmallChunks_by_recursion. destruct cs as [|c rest]; simpl.
  - split; [lia | tauto].
  - pose proof (merge_loop_length rest c) as L. split; [lia|].
    split; [|discriminate]. intros E. rewrite E in L. simpl in L. lia.
Qed.

End MergeMore.

(** ** More on chunkByPages *)

Section PagesMore.

Variable fname : jsstring.
Variable options : PartialChunkingOptions.

Lemma mapi_from_In {A B : Type} (f : nat -> A -> B) (l : list A) :
  forall i y, In y (mapi_from f i l) ->
              exists k x, nth_error l k = Some x /\ y = f (i + k)%nat x.
Proof.
  induction l as [|a l IH]; intros i y H; simpl in H; [contradiction|].
  destruct H as [<- | H].
  - exists 0%nat, a. split; [reflexivity | now rewrite Nat.add_0_r].
  - apply IH in H as (k & x & Hk & ->). exists (S k), x.
    split; [exact Hk | f_equal; lia].
Qed.

Lemma chunkText_label_at (text : jsstring) (i : nat) (c : DocumentChunk) :
  nth_error (chunkText text fname options) i = Some c ->
  filename (metadata c) = fname
  /\ chunkIndex (metadata c) = Z.of_nat i
  /\ totalChunks (metadata c)
     = Z.of_nat (length (chunkText text fname options)).
Proof.
  intros H. split; [|split].
  - apply chunkText_nth in H as (x & Hx & _ & _ & -> & _).
    pose proof (raw_chunks_labels fname (spread_options options) text) as L.
    apply (f_equal (fun l => nth_error l i)) in L.
    rewrite !nth_error_map, Hx in L.
    rewrite nth_error_seq_from in L by (apply nth_error_Some; congruence).
    simpl in L. now injection L as _ ->.
  - apply chunkText_nth in H as (x & Hx & _ & _ & _ & _ & ->).
    pose proof (raw_chunks_labels fname (spread_options options) text) as L.
    apply (f_equal (fun l => nth_error l i)) in L.
    rewrite !nth_error_map, Hx in L.
    rewrite nth_error_seq_from in L by (apply nth_error_Some; congruence).
    simpl in L. now injection L as _ ->.
  - apply nth_error_In in H. revert H.
    destruct (chunkText_cases fname text options) as [E | E]; rewrite E.
    + intros [].
    + intros H. apply in_map_iff in H as (x & <- & _).
      now rewrite length_map.
Qed.

(** X13: every chunk of [chunkByPages] comes from one page: it is the chunk
    at some position [i] of [chunkText] on the page of index [p], with that
    chunk's content, the page number [p + 1], the id
    [`${filename}-page${p+1}-chunk-${i}`], [chunkIndex = i], and as
    [totalChunks] the number of chunks of that page alone. *)
Theorem chunkByPages_provenance (pages : list jsstring) (c : DocumentChunk) :
  In c (chunkByPages pages fname options) ->
  exists p pageText i x,
    nth_error pages p = Some pageText
    /\ nth_error (chunkText pageText fname options) i = Some x
    /\ content c = content x
    /\ id c = page_id fname (p + 1) i
    /\ page (metadata c) = Some (Z.of_nat (p + 1))
    /\ filename (metadata c) = fname
    /\ chunkIndex (metadata c) = Z.of_nat i
    /\ totalChunks (metadata c)
       = Z.of_nat (length (chunkText pageText fname options)).
Proof.
  rewrite chunkByPages_concat. unfold chunkByPages_spec. intros H.
  apply in_concat in H as (l & Hl & Hc).
  apply mapi_from_In in Hl as (p & pageText & Hp & ->).
  unfold relabel_page in Hc.
  apply mapi_from_In in Hc as (i & x & Hx & ->).
  destruct (chunkText_label_at pageText i x Hx) as (Hf & Hi & Ht).
  exists p, pageText, i, x. cbn [id content metadata page filename
                                  chunkIndex totalChunks].
  simpl Nat.add. rewrite Nat.add_1_r. repeat split; assumption.
Qed.

Lemma mapi_from_content {A : Type} (f : nat -> A -> DocumentChunk)
    (g : A -> jsstring) (i : nat) (l : list A) :
  (forall k x, content (f k x) = g x) ->
  map content (mapi_from f i l) = map g l.
Proof.
  intros H. revert i. induction l as [|x l IH]; intros i; simpl;
    [reflexivity|]. now rewrite H, IH.
Qed.

Lemma paged_contents (pages : list jsstring) (i : nat) :
  map content
    (concat (mapi_from (fun j pageText =>
                          relabel_page fname options (S j) pageText) i pages))
  = concat (map (fun pageText => map content (chunkText pageText fname options))
                pages).
Proof.
  revert i. induction pages as [|pageText pages IH]; intros i; simpl;
    [reflexivity|].
  rewrite map_app, IH. f_equal. unfold relabel_page.
  now rewrite (mapi_from_content _ content).
Qed.

(** X14: page-wise chunking changes no text: the contents of the result
    are the contents of the chunks of each page, page after page; a page
    without a sentence contributes nothing. *)
Theorem chunkByPages_contents (pages : list jsstring) :
  map content (chunkByPages pages fname options)
  = concat (map (fun pageText => map content (chunkText pageText fname options))
                pages).
Proof. rewrite chunkByPages_concat. apply paged_contents. Qed.

End PagesMore.

(** ** Reading marked lines off a generated text *)

Section MarkedLines.

Lemma has_substring_In (a b : jsstring) (c : N) :
  has_substring a b -> In c a -> In c b.
Proof.
  intros (pre & post & ->) H. apply in_or_app. right.
  apply in_or_app. now left.
Qed.

Lemma split_char_from_pieces (sep : N) (s : jsstring) :
  forall piece, ~ In sep piece ->
    Forall (fun p => ~ In sep p) (split_char_from sep piece s).
Proof.
  induction s as [|c s IH]; intros piece Hp; simpl.
  - constructor; [exact Hp | constructor].
  - destruct (N.eqb_spec c sep) as [-> | Hc].
    + constructor; [exact Hp|]. apply IH. intros [].
    + apply IH. intros H. apply in_app_or in H as [H | [H | []]];
        [exact (Hp H) | congruence].
Qed.

Lemma startsWith_prefix (s prefix : jsstring) :
  startsWith s prefix = true -> exists rest, s = prefix ++ rest.
Proof.
  revert s. induction prefix as [|p prefix IH]; intros s H.
  - exists s. reflexivity.
  - destruct s as [|c s]; [discriminate H|]. simpl in H.
    apply andb_true_iff in H as [Hc H]. apply N.eqb_eq in Hc. subst c.
    destruct (IH s H) as [rest ->]. exists rest. reflexivity.
Qed.

Lemma substring_after_prefix (prefix rest : jsstring) :
  substring (prefix ++ rest) (js_length prefix) = rest.
Proof.
  unfold substring, js_length. rewrite length_app.
  replace (Z.to_nat _) with (length prefix + 0)%nat by lia.
  rewrite skipn_app, Nat.add_0_r, skipn_all, Nat.sub_diag. reflexivity.
Qed.

Lemma marked_lines_clean (marker response : jsstring) :
  Forall (fun q => clean_line q /\ marked_line_of marker response q)
         (marked_lines marker (js_length marker) response).
Proof.
  unfold marked_lines. apply Forall_forall. intros q Hq.
  apply filter_In in Hq as [Hq Hlen].
  apply in_map_iff in Hq as (line & <- & Hline).
  apply filter_In in Hline as [Hline Hstart].
  destruct (startsWith_prefix _ _ Hstart) as [rest Hrest].
  rewrite Hrest, substring_after_prefix in *. split.
  - split; [|split].
    + intros E. rewrite E in Hlen. discriminate Hlen.
    + apply trim_idempotent.
    + intros Hn.
      assert (In newline line).
      { apply (has_substring_In (trim line) line); [apply trim_substring|].
        rewrite Hrest. apply in_or_app. right.
        apply (has_substring_In (trim rest) rest); [apply trim_substring|].
        exact Hn. }
      pose proof (split_char_from_pieces newline response [] (fun H => H)) as P.
      rewrite Forall_forall in P. exact (P line Hline H).
  - exists line, rest. repeat split; assumption.
Qed.

Lemma array_slice0_firstn {A : Type} (l : list A) (stop : Z) :
  exists k, array_slice0 l stop = firstn k l
            /\ (0 <= stop -> Z.of_nat k <= stop).
Proof.
  unfold array_slice0. eexists. split; [reflexivity|].
  intros H. destruct (Z.ltb_spec stop 0); lia.
Qed.

Lemma Forall_firstn {A : Type} (P : A -> Prop) (k : nat) (l : list A) :
  Forall P l -> Forall P (firstn k l).
Proof.
  intros H. apply Forall_forall. intros x Hx.
  rewrite Forall_forall in H. apply H.
  rewrite <- (firstn_skipn k l). apply in_or_app. now left.
Qed.

Lemma array_slice0_shape (marker response : jsstring) (stop : Z) :
  0 <= stop ->
  let qs := array_slice0 (marked_lines marker (js_length marker) response)
                         stop in
  Z.of_nat (length qs) <= stop
  /\ Forall (fun q => clean_line q /\ marked_line_of marker response q) qs.
Proof.
  intros H. cbv zeta.
  destruct (array_slice0_firstn
              (marked_lines marker (js_length marker) response) stop)
    as (k & -> & Hk).
  split.
  - pose proof (length_firstn k
                  (marked_lines marker (js_length marker) response)).
    specialize (Hk H). lia.
  - apply Forall_firstn, marked_lines_clean.
Qed.

(** X15: [generateFollowUpQuestions] returns at most 3 questions; each is
    not empty, trimmed and on one line, and is the trimmed rest of a line
    of the generated text that, once trimmed, starts with ["Q:"].  When the
    generation fails, the result is the empty list. *)
Theorem generateFollowUpQuestions_shape (generated : option jsstring) :
  (length (generateFollowUpQuestions generated) <= 3)%nat
  /\ Forall clean_line (generateFollowUpQuestions generated)
  /\ (forall response, generated = Some response ->
        Forall (marked_line_of (str "Q:") response)
               (generateFollowUpQuestions generated))
  /\ (generated = None -> generateFollowUpQuestions generated = []).
Proof.
  destruct generated as [response|]; simpl.
  - destruct (array_slice0_shape (str "Q:") response 3) as [L F]; [lia|].
    change (js_length (str "Q:")) with 2 in L, F.
    split; [lia|]. split; [|split].
    + eapply Forall_impl; [|exact F]. now intros q [H _].
    + intros r E. injection E as <-.
      eapply Forall_impl; [|exact F]. now intros q [_ H].
    + discriminate.
  - split; [lia|]. split; [constructor|]. split; [discriminate | reflexivity].
Qed.

(** X16: for a non-negative [maxPoints], [extractKeyPoints] on a generated
    text returns at most [maxPoints] points, each not empty, trimmed and
    on one line, the trimmed rest of a line that starts with ["-"]. *)
Theorem extractKeyPoints_shape (text : jsstring) (maxPoints : Z) :
  0 <= maxPoints ->
  Z.of_nat (length (extractKeyPoints (Some text) maxPoints)) <= maxPoints
  /\ Forall (fun q => clean_line q /\ marked_line_of (str "-") text q)
            (extractKeyPoints (Some text) maxPoints).
Proof. intros H. now apply (array_slice0_shape (str "-") text maxPoints). Qed.

End MarkedLines.

(** ** The upload route *)

Section Upload.

(** X17: the sanitised filename has the length of the name, consists of
    ASCII letters, digits, ['.'], ['-'] and ['_'] only, so it has no ['/']
    and no ['\'], and sanitising it again changes nothing. *)
Theorem safeFilename_safe (name : jsstring) :
  length (safeFilename name) = length name
  /\ Forall (fun c => isFilenameChar c = true \/ c = underscore)
            (safeFilename name)
  /\ ~ In 47%N (safeFilename name)
  /\ ~ In 92%N (safeFilename name)
  /\ safeFilename (safeFilename name) = safeFilename name.
Proof.
  assert (F : Forall (fun c => isFilenameChar c = true \/ c = underscore)
                     (safeFilename name)).
  { unfold safeFilename. apply Forall_forall. intros c Hc.
    apply in_map_iff in Hc as (x & <- & _).
    destruct (isFilenameChar x) eqn:E; [now left | now right]. }
  split; [apply length_map|]. split; [exact F|].
  rewrite Forall_forall in F. split; [|split].
  - intros H. destruct (F _ H) as [E | E]; discriminate E.
  - intros H. destruct (F _ H) as [E | E]; discriminate E.
  - unfold safeFilename. rewrite map_map. apply map_ext. intros c.
    destruct (isFilenameChar c) eqn:E; [now rewrite E | reflexivity].
Qed.

(** X18: [processPDF] chunks a PDF of several pages exactly as one of a
    single page: the options it passes for [numpages > 1] are the
    defaults. *)
Theorem processPDF_same_chunks (numpages : Z) (text fname : jsstring) :
  processPDF_chunks numpages text fname = chunkText text fname no_options.
Proof. unfold processPDF_chunks. destruct (numpages >? 1); reflexivity. Qed.

End Upload.

(** ** Environment and sign-in *)

Section Environment.

Variable penv : ProcessEnv.

Lemma env_falsy_required (key : jsstring) :
  In key required -> env_falsy (env penv) key = negb (is_set penv key).
Proof.
  intros H. unfold required in H. simpl in H.
  repeat (destruct H as [<- | H];
          [vm_compute; destruct (penv _) as [[|? ?]|]; reflexivity|]).
  contradiction.
Qed.

Lemma missing_required :
  filter (env_falsy (env penv)) required
  = filter (fun key => negb (is_set penv key)) required.
Proof. apply filter_ext_in. intros key. apply env_falsy_required. Qed.

Lemma filter_nil_iff {A : Type} (f : A -> bool) (l : list A) :
  filter f l = [] <-> forall x, In x l -> f x = false.
Proof.
  induction l as [|a l IH]; simpl; [tauto|].
  destruct (f a) eqn:E; split.
  - discriminate.
  - intros H. specialize (H a (or_introl eq_refl)). congruence.
  - intros H x [<- | Hx]; [exact E | now apply IH].
  - intros H. apply IH. intros x Hx. apply H. now right.
Qed.

Lemma validateEnv_ok_iff :
  validateEnv penv = None
  <-> forall key, In key required -> is_set penv key = true.
Proof.
  unfold validateEnv. rewrite missing_required.
  destruct (filter _ required) as [|k l] eqn:F.
  - split; [|reflexivity]. intros _ key Hkey.
    pose proof (proj1 (filter_nil_iff _ _) F key Hkey) as E.
    now apply negb_false_iff in E.
  - split; [discriminate|]. intros H. exfalso.
    assert (Hk : In k (filter (fun key => negb (is_set penv key)) required))
      by (rewrite F; now left).
    apply filter_In in Hk as [Hk E]. rewrite (H k Hk) in E. discriminate E.
Qed.

(** X19: [validateEnv] returns normally exactly when each of the ten
    required variables is set to a non-empty value in [process.env];
    otherwise the error it throws names the required variables that are
    unset or empty, in the order of the list, separated by [", "]. *)
Theorem validateEnv_spec :
  (validateEnv penv = None
   <-> forall key, In key required -> is_set penv key = true)
  /\ (forall message,
        validateEnv penv = Some message ->
        message = str "Missing required environment variables: "
                  ++ join_with (str ", ")
                       (filter (fun key => negb (is_set penv key)) required)).
Proof.
  split; [exact validateEnv_ok_iff|].
  unfold validateEnv. rewrite missing_required.
  destruct (_ >? 0); intros message E; [|discriminate E].
  now injection E as <-.
Qed.

Lemma equals_env_password (password : jsstring) :
  equals_env password (env penv) (str "ADMIN_PASSWORD")
  = str_eqb password (or_default (penv (str "ADMIN_PASSWORD")) []).
Proof. reflexivity. Qed.

Lemma equals_env_username (username : jsstring) :
  equals_env username (env penv) (str "ADMIN_USERNAME")
  = str_eqb username (admin_username penv).
Proof. reflexivity. Qed.

Lemma str_eqb_refl (a : jsstring) : str_eqb a a = true.
Proof. now apply str_eqb_eq. Qed.

Lemma empty_password_default :
  str_eqb [] (or_default (penv (str "ADMIN_PASSWORD")) [])
  = negb (is_set penv (str "ADMIN_PASSWORD")).
Proof.
  unfold or_default, is_set.
  destruct (penv (str "ADMIN_PASSWORD")) as [[|c v]|]; reflexivity.
Qed.

(** X20: the administrator's name with an empty password signs in exactly
    when [ADMIN_PASSWORD] is unset or empty in [process.env]. *)
Theorem authorize_empty_password :
  authorize penv (Some (admin_username penv, [])) <> None
  <-> is_set penv (str "ADMIN_PASSWORD") = false.
Proof.
  unfold authorize.
  rewrite equals_env_username, equals_env_password, str_eqb_refl,
    empty_password_default.
  destruct (is_set penv (str "ADMIN_PASSWORD")); simpl; split;
    congruence.
Qed.

(** X21: under an environment that [validateEnv] accepts, nobody signs in
    with an empty password. *)
Theorem authorize_after_validateEnv (username : jsstring) :
  validateEnv penv = None ->
  authorize penv (Some (username, [])) = None.
Proof.
  intros H. rewrite validateEnv_ok_iff in H.
  assert (E : is_set penv (str "ADMIN_PASSWORD") = true).
  { apply H. unfold required. simpl. repeat (try (now left); right). }
  unfold authorize. rewrite equals_env_password, empty_password_default, E.
  now rewrite andb_false_r.
Qed.

End Environment.

(** ** Worked instances of the further properties *)

Section MoreExamples.

Lemma sample_chunks_at_0 :
  nth_error (chunkText sample_text (str "test.txt") options_100_20) 0
  = Some sample_first_chunk.
Proof. vm_compute. reflexivity. Qed.

Lemma chunkText_nil_iff_witness :
  sentences_of (str "?! ...") = []
  /\ chunkText (str "?! ...") (str "empty.txt") no_options = [].
Proof.
  assert (H : sentences_of (str "?! ...") = []) by (vm_compute; reflexivity).
  split; [exact H|].
  exact (proj2 (chunkText_nil_iff (str "empty.txt") no_options (str "?! ..."))
               H).
Defined.

Lemma chunkText_labels_witness :
  nth_error (chunkText sample_text (str "test.txt") options_100_20) 0
  = Some sample_first_chunk
  /\ id sample_first_chunk = chunk_id (str "test.txt") 0
  /\ filename (metadata sample_first_chunk) = str "test.txt"
  /\ page (metadata sample_first_chunk) = None
  /\ chunkIndex (metadata sample_first_chunk) = Z.of_nat 0.
Proof.
  split; [exact sample_chunks_at_0|].
  exact (chunkText_labels (str "test.txt") options_100_20 sample_text 0
           sample_first_chunk sample_chunks_at_0).
Defined.

Lemma chunkText_content_trimmed_witness :
  In sample_first_chunk
     (chunkText sample_text (str "test.txt") options_100_20)
  /\ trim (content sample_first_chunk) = content sample_first_chunk
  /\ (1 <= minChunkSize (spread_options options_100_20) ->
      content sample_first_chunk <> []).
Proof.
  split; [exact sample_chunks_first|].
  exact (chunkText_content_trimmed (str "test.txt") options_100_20 sample_text
           sample_first_chunk sample_chunks_first).
Defined.

Lemma chunkText_count_witness :
  1 <= minChunkSize (spread_options options_100_20)
  /\ (length (chunkText sample_text (str "test.txt") options_100_20)
      <= length (sentences_of sample_text))%nat.
Proof.
  assert (H : 1 <= minChunkSize (spread_options options_100_20))
    by (vm_compute; discriminate).
  split; [exact H|].
  exact (chunkText_count (str "test.txt") options_100_20 sample_text H).
Defined.

Lemma sample_sentence_in : In sample_sentence (sentences_of sample_text).
Proof. vm_compute. right. left. reflexivity. Qed.

Lemma chunkText_keeps_sentences_witness :
  In sample_sentence (sentences_of sample_text)
  /\ exists c, In c (chunkText sample_text (str "test.txt") options_100_20)
               /\ has_substring (trim sample_sentence ++ [dot]) (content c).
Proof.
  split; [exact sample_sentence_in|].
  exact (chunkText_keeps_sentences (str "test.txt") sample_text options_100_20
           sample_sentence sample_sentence_in).
Defined.

Lemma chunkText_partitions_sentences_witness :
  2 <= chunkOverlap (spread_options options_100_20)
  /\ chunkOverlap (spread_options options_100_20)
     < minChunkSize (spread_options options_100_20)
  /\ exists groups,
       concat groups = map sentence_text (sentences_of sample_text)
       /\ Forall (fun g => g <> []) groups
       /\ map content (chunkText sample_text (str "test.txt") options_100_20)
          = map join_space groups.
Proof.
  assert (H1 : 2 <= chunkOverlap (spread_options options_100_20))
    by (vm_compute; discriminate).
  assert (H2 : chunkOverlap (spread_options options_100_20)
               < minChunkSize (spread_options options_100_20))
    by (vm_compute; reflexivity).
  split; [exact H1 | split; [exact H2|]].
  exact (chunkText_partitions_sentences sample_text (str "test.txt")
           options_100_20 H1 H2).
Defined.

Lemma long_chunks_large :
  Forall (fun c => 20 <= js_length (content c)) long_chunks.
Proof. repeat constructor; vm_compute; discriminate. Qed.

Lemma mergeSmallChunks_nothing_small_witness :
  Forall (fun c => 20 <= js_length (content c)) long_chunks
  /\ mergeSmallChunks long_chunks 20 = long_chunks.
Proof.
  split; [exact long_chunks_large|].
  exact (mergeSmallChunks_nothing_small 20 long_chunks long_chunks_large).
Defined.

Lemma page_one_chunk_in :
  In page_one_chunk (chunkByPages two_pages (str "doc.pdf") no_options).
Proof. vm_compute. left. reflexivity. Qed.

Lemma chunkByPages_provenance_witness :
  In page_one_chunk (chunkByPages two_pages (str "doc.pdf") no_options)
  /\ exists p pageText i x,
       nth_error two_pages p = Some pageText
       /\ nth_error (chunkText pageText (str "doc.pdf") no_options) i = Some x
       /\ content page_one_chunk = content x
       /\ id page_one_chunk = page_id (str "doc.pdf") (p + 1) i
       /\ page (metadata page_one_chunk) = Some (Z.of_nat (p + 1))
       /\ filename (metadata page_one_chunk) = str "doc.pdf"
       /\ chunkIndex (metadata page_one_chunk) = Z.of_nat i
       /\ totalChunks (metadata page_one_chunk)
          = Z.of_nat (length (chunkText pageText (str "doc.pdf") no_options)).
Proof.
  split; [exact page_one_chunk_in|].
  exact (chunkByPages_provenance (str "doc.pdf") no_options two_pages
           page_one_chunk page_one_chunk_in).
Defined.

Lemma generateFollowUpQuestions_shape_witness :
  generateFollowUpQuestions (Some sample_answer)
  = [str "What next?"; str "And then?"]
  /\ Forall (marked_line_of (str "Q:") sample_answer)
            (generateFollowUpQuestions (Some sample_answer)).
Proof.
  split; [vm_compute; reflexivity|].
  destruct (generateFollowUpQuestions_shape (Some sample_answer))
    as (_ & _ & H & _).
  exact (H sample_answer eq_refl).
Defined.

Lemma extractKeyPoints_shape_witness :
  0 <= 5
  /\ extractKeyPoints (Some sample_points) 5
     = [str "first point"; str "second point"]
  /\ Z.of_nat (length (extractKeyPoints (Some sample_points) 5)) <= 5.
Proof.
  split; [lia|]. split; [vm_compute; reflexivity|].
  destruct (extractKeyPoints_shape sample_points 5) as [H _]; [lia|].
  exact H.
Defined.

Lemma full_env_set :
  forall key, In key required -> is_set full_env key = true.
Proof.
  intros key H. unfold required in H. simpl in H.
  repeat (destruct H as [<- | H]; [vm_compute; reflexivity|]).
  contradiction.
Qed.

Lemma validateEnv_spec_witness :
  (forall key, In key required -> is_set full_env key = true)
  /\ validateEnv full_env = None.
Proof.
  split; [exact full_env_set|].
  exact (proj2 (proj1 (validateEnv_spec full_env)) full_env_set).
Defined.

Lemma authorize_empty_password_witness :
  is_set env_without_password (str "ADMIN_PASSWORD") = false
  /\ authorize env_without_password (Some (str "admin", str "")) <> None.
Proof.
  assert (H : is_set env_without_password (str "ADMIN_PASSWORD") = false)
    by (vm_compute; reflexivity).
  split; [exact H|].
  exact (proj2 (authorize_empty_password env_without_password) H).
Defined.

Lemma authorize_after_validateEnv_witness :
  validateEnv full_env = None
  /\ authorize full_env (Some (str "admin", str "")) = None.
Proof.
  assert (H : validateEnv full_env = None) by (vm_compute; reflexivity).
  split; [exact H|].
  exact (authorize_after_validateEnv full_env (str "admin") H).
Defined.

End MoreExamples.
